(** * named-events: event sources with an ordered listener registry

    A shallow embedding of [createCustomEvent], [createValueBackedEvent],
    [joinRemoveListeners] and [aryRemoveItem], and the properties of the
    registry and of dispatch that the specification states.

    Functions are compared by reference in JavaScript, so a function is
    represented by a numeric reference.  The [listeners] array of a source is
    private to the closure that [createCustomEvent] builds: outside code can
    reach it only through [evt], [addListener], [removeListener], the removers
    and [trigger].  A listener body is therefore modelled by the sequence of
    such calls it performs on the source while it runs. *)

From Stdlib Require Import String List Arith Bool ZArith Lia.
Import ListNotations.

(** ** JavaScript values *)

(** A reference to a function object. *)
Definition FnRef := nat.

(** Numbers are represented by integers, with [VNaN] apart: it is the one
    value that [===] does not relate to itself. *)
Inductive Value : Type :=
| VUndefined
| VNull
| VBool (b : bool)
| VNum (z : Z)
| VNaN
| VStr (s : String.string)
| VObj (ref : nat)
| VFun (f : FnRef).

(** [a === b] *)
Definition strict_eq (a b : Value) : bool :=
  match a, b with
  | VUndefined, VUndefined => true
  | VNull, VNull => true
  | VBool x, VBool y => Bool.eqb x y
  | VNum x, VNum y => Z.eqb x y
  | VStr x, VStr y => String.eqb x y
  | VObj x, VObj y => Nat.eqb x y
  | VFun x, VFun y => Nat.eqb x y
  | _, _ => false
  end.

(** [typeof v === 'function'], giving the function when it holds. *)
Definition as_function (v : Value) : option FnRef :=
  match v with
  | VFun f => Some f
  | _ => None
  end.

(** ** Arrays of listeners *)

(** A listener is a function; [ary[i]===item] compares references. *)
Definition Listener := FnRef.

(** [ary.push(x)] *)
Definition push (ary : list Listener) (x : Listener) : list Listener :=
  ary ++ [x].

(** [ary.splice(start,count)], the array that remains. *)
Definition splice (ary : list Listener) (start count : nat) : list Listener :=
  firstn start ary ++ skipn (start + count) ary.

(** The loop of [aryRemoveItem], [for(let i=0;i<ary.length;i++)], entered at
    index [i] with [n] iterations left to run.  The array is only changed by the
    [splice] that ends the loop. *)
Fixpoint aryRemoveItem_from (n i : nat) (ary : list Listener) (item : Listener)
  : list Listener * bool :=
  match n with
  | 0 => (ary, false)
  | S n' =>
      match nth_error ary i with
      | None => (ary, false)
      | Some x =>
          if Nat.eqb x item then (splice ary i 1, true)
          else aryRemoveItem_from n' (S i) ary item
      end
  end.

(** [aryRemoveItem(ary,item)]: the array after the call and the returned
    boolean.  The guard [if(!ary)] never fires, an array being truthy. *)
Definition aryRemoveItem (ary : list Listener) (item : Listener)
  : list Listener * bool :=
  aryRemoveItem_from (length ary) 0 ary item.

(** Runs a sequence of calls, stopping at the first that gives no result. *)
Fixpoint seq_calls {C W : Type} (step : C -> W -> option W) (cs : list C) (w : W)
  : option W :=
  match cs with
  | [] => Some w
  | c :: cs' =>
      match step c w with
      | Some w' => seq_calls step cs' w'
      | None => None
      end
  end.

(** ** createCustomEvent *)

Module Custom.

(** The state of one source: the private [listeners] array, and the record
    of the listener invocations made so far, each with its arguments. *)
Record World : Type := mkWorld {
  listeners : list Listener;
  invoked : list (Listener * list Value)
}.

(** What outside code, a listener body included, can do to the source. *)
Inductive Call : Type :=
| CallEvt (l : Listener)             (* evt(l) *)
| CallAddListener (l : Listener)     (* evt.addListener(l) *)
| CallRemoveListener (l : Listener)  (* evt.removeListener(l) *)
| CallRemover (l : Listener)         (* r() where r was returned by evt(l) *)
| CallTrigger (args : list Value).   (* trigger(...args) *)

Definition removeListener (listener : Listener) (w : World) : World :=
  mkWorld (fst (aryRemoveItem (listeners w) listener)) (invoked w).

Definition addListener (listener : Listener) (w : World) : World :=
  mkWorld (push (listeners w) listener) (invoked w).

(** The closure [()=>{removeListener(listener)}] that [evt] returns. *)
Definition remover (listener : Listener) : World -> World :=
  removeListener listener.

(** [evt(listener)]: the returned remover and the state after the push. *)
Definition evt (listener : Listener) (w : World) : (World -> World) * World :=
  (remover listener, mkWorld (push (listeners w) listener) (invoked w)).

(** The two ways to register a listener. *)
Inductive Via : Type :=
| ViaEvt
| ViaAddListener.

Definition register (via : Via) (l : Listener) (w : World) : World :=
  match via with
  | ViaEvt => snd (evt l w)
  | ViaAddListener => addListener l w
  end.

(** Registrations made one after another, the first of [rs] first. *)
Definition register_all (rs : list (Via * Listener)) (w : World) : World :=
  fold_left (fun w r => register (fst r) (snd r) w) rs w.

(** The entry of [l.apply(null,args)] in the record of invocations. *)
Definition enter (l : Listener) (args : list Value) (w : World) : World :=
  mkWorld (listeners w) (invoked w ++ [(l, args)]).

(** How many times [f] was invoked in a stretch of the record. *)
Definition times_invoked (f : Listener) (tr : list (Listener * list Value)) : nat :=
  count_occ Nat.eq_dec (map fst tr) f.

Section Dispatch.

(** The calls a listener makes on the source when it is invoked. *)
Variable body : Listener -> list Value -> list Call.

(** [for(const l of listeners)] steps an array iterator: it holds an
    index, and each step reads the live array at that index, stopping
    once the index is no longer below the length.  [for_of fuel args i w]
    is the loop of [trigger] with the iterator at index [i]; [exec] runs
    one call.  A listener may call [trigger] again or grow the array
    under the loop, so both take fuel; [None] is fuel run out.  The guard
    [if(listeners)] always holds, an array being truthy. *)
Fixpoint exec (fuel : nat) (c : Call) (w : World) {struct fuel} : option World :=
  match fuel with
  | 0 => None
  | S n =>
      match c with
      | CallEvt l => Some (snd (evt l w))
      | CallAddListener l => Some (addListener l w)
      | CallRemoveListener l => Some (removeListener l w)
      | CallRemover l => Some (remover l w)
      | CallTrigger args => for_of n args 0 w
      end
  end
with for_of (fuel : nat) (args : list Value) (i : nat) (w : World)
       {struct fuel} : option World :=
  match nth_error (listeners w) i with
  | None => Some w
  | Some l =>
      match fuel with
      | 0 => None
      | S n =>
          match seq_calls (exec n) (body l args) (enter l args w) with
          | Some w' => for_of n args (S i) w'
          | None => None
          end
      end
  end.

(** [trigger(...args)] *)
Definition trigger (fuel : nat) (args : list Value) (w : World) : option World :=
  for_of fuel args 0 w.

End Dispatch.

(** [createCustomEvent()]: a source with an empty registry. *)
Definition createCustomEvent : World := mkWorld [] [].

(** [createValueEvent()] and [createEvent()] return [createCustomEvent()]. *)
Definition createValueEvent : World := createCustomEvent.

Definition createEvent : World := createCustomEvent.

End Custom.

(** ** createValueBackedEvent *)

Module ValueBacked.

(** The state of one source: the [value] cell, the private [listeners]
    array, and the record of the listener invocations made so far, each
    with the value it was passed. *)
Record World : Type := mkWorld {
  value : Value;
  listeners : list Listener;
  invoked : list (Listener * Value)
}.

Inductive Call : Type :=
| CallEvt (l : Listener)             (* evt(l) *)
| CallAddListener (l : Listener)     (* evt.addListener(l) *)
| CallRemoveListener (l : Listener)  (* evt.removeListener(l) *)
| CallRemover (l : Listener)         (* r() where r was returned by evt(l) *)
| CallSetValue (v : Value)           (* setValue(v) *)
| CallTrigger (v : Value).           (* trigger(v) *)

Definition removeListener (listener : Listener) (w : World) : World :=
  mkWorld (value w) (fst (aryRemoveItem (listeners w) listener)) (invoked w).

Definition addListener (listener : Listener) (w : World) : World :=
  mkWorld (value w) (push (listeners w) listener) (invoked w).

Definition remover (listener : Listener) : World -> World :=
  removeListener listener.

Definition evt (listener : Listener) (w : World) : (World -> World) * World :=
  (remover listener,
   mkWorld (value w) (push (listeners w) listener) (invoked w)).

(** [getValue()], also reachable as [evt.getValue()]. *)
Definition getValue (w : World) : Value := value w.

(** The assignment [value=v]. *)
Definition assign (v : Value) (w : World) : World :=
  mkWorld v (listeners w) (invoked w).

(** The entry of [l(value)] in the record of invocations. *)
Definition enter (l : Listener) (w : World) : World :=
  mkWorld (value w) (listeners w) (invoked w ++ [(l, value w)]).

Section Dispatch.

(** The result of calling a function value on one argument, as [setValue]
    does with an updater. *)
Variable apply_fn : FnRef -> Value -> Value.

(** The calls a listener makes on the source when it is invoked. *)
Variable body : Listener -> Value -> list Call.

(** [setValue] from its first line to its last, over the loop [loop] it
    runs: the [typeof] test, the comparison, the assignment, the
    dispatch and the returned [value]. *)
Definition setValue_over (loop : World -> option World) (v : Value) (w : World)
  : option (Value * World) :=
  let v := match as_function v with
           | Some f => apply_fn f (value w)
           | None => v
           end in
  if strict_eq v (value w) then Some (value w, w)
  else match loop (assign v w) with
       | Some w' => Some (value w', w')
       | None => None
       end.

(** The raw [trigger], likewise. *)
Definition trigger_over (loop : World -> option World) (v : Value) (w : World)
  : option World :=
  if strict_eq v (value w) then Some w
  else loop (assign v w).

(** The loop [for(const l of listeners){ l(value) }], which both
    [setValue] and [trigger] contain, with the array iterator at index
    [i]; the variable [value] is read anew at each call. *)
Fixpoint exec (fuel : nat) (c : Call) (w : World) {struct fuel} : option World :=
  match fuel with
  | 0 => None
  | S n =>
      match c with
      | CallEvt l => Some (snd (evt l w))
      | CallAddListener l => Some (addListener l w)
      | CallRemoveListener l => Some (removeListener l w)
      | CallRemover l => Some (remover l w)
      | CallSetValue v => option_map snd (setValue_over (for_of n 0) v w)
      | CallTrigger v => trigger_over (for_of n 0) v w
      end
  end
with for_of (fuel : nat) (i : nat) (w : World) {struct fuel} : option World :=
  match nth_error (listeners w) i with
  | None => Some w
  | Some l =>
      match fuel with
      | 0 => None
      | S n =>
          match seq_calls (exec n) (body l (value w)) (enter l w) with
          | Some w' => for_of n (S i) w'
          | None => None
          end
      end
  end.

(** [setValue(v)]: the returned value and the state after the call. *)
Definition setValue (fuel : nat) (v : Value) (w : World) : option (Value * World) :=
  setValue_over (for_of fuel 0) v w.

(** [trigger(v)] *)
Definition trigger (fuel : nat) (v : Value) (w : World) : option World :=
  trigger_over (for_of fuel 0) v w.

End Dispatch.

(** A sequence of calls made on the source from outside, each with the
    fuel [fuel]. *)
Definition run (apply_fn : FnRef -> Value -> Value)
           (body : Listener -> Value -> list Call)
           (fuel : nat) (cs : list Call) (w : World) : option World :=
  seq_calls (exec apply_fn body fuel) cs w.

(** The value a call proposes, given the current one: the argument of
    [trigger], the argument of [setValue] or what it computes from the
    current value.  The other calls propose none. *)
Definition candidate (apply_fn : FnRef -> Value -> Value) (c : Call) (cur : Value)
  : option Value :=
  match c with
  | CallSetValue v =>
      Some (match as_function v with
            | Some f => apply_fn f cur
            | None => v
            end)
  | CallTrigger v => Some v
  | _ => None
  end.

(** After the specification's words: the value of the last successful
    trigger of a sequence of calls, one whose new value was not equal to
    the previous value, or the value [cur] held before them when none
    was successful. *)
Fixpoint last_successful (apply_fn : FnRef -> Value -> Value)
         (cur : Value) (cs : list Call) : Value :=
  match cs with
  | [] => cur
  | c :: cs' =>
      match candidate apply_fn c cur with
      | Some new =>
          if strict_eq new cur then last_successful apply_fn cur cs'
          else last_successful apply_fn new cs'
      | None => last_successful apply_fn cur cs'
      end
  end.

(** [createValueBackedEvent(initValue)] *)
Definition createValueBackedEvent (initValue : Value) : World :=
  mkWorld initValue [] [].

End ValueBacked.

(** ** joinRemoveListeners *)

Module Join.

(** How a call to a remover ends. *)
Inductive Completion : Type :=
| Returned
| Thrown.

Section Join.

(** Whatever the removers act on. *)
Variable W : Type.

(** The effect of calling the remover [r], and how the call ends. *)
Variable call : FnRef -> W -> Completion * W.

(** The state, and the record of the removers called so far. *)
Record State : Type := mkState {
  world : W;
  called : list FnRef
}.

(** The closure that [joinRemoveListeners(...listeners)] returns.  The
    rest-parameter array is the closure's own and nothing writes to it,
    so the iterator of [for(const l of listeners)] meets its elements
    one after another.  Nothing catches what [l()] throws. *)
Fixpoint joinRemoveListeners (listeners : list FnRef) (s : State)
  : Completion * State :=
  match listeners with
  | [] => (Returned, s)
  | l :: rest =>
      let (c, w') := call l (world s) in
      let s' := mkState w' (called s ++ [l]) in
      match c with
      | Returned => joinRemoveListeners rest s'
      | Thrown => (Thrown, s')
      end
  end.

End Join.

End Join.

(** ** Example listeners, updaters and removers *)

(** Listeners that make no call on the source. *)
Definition passive (l : Listener) (args : list Value) : list Custom.Call := [].

(** Listener [0] calls the remover it got from [evt] when it is invoked; the
    others make no call on the source. *)
Definition selfRemoving (l : Listener) (args : list Value) : list Custom.Call :=
  match l with
  | 0 => [Custom.CallRemover 0]
  | _ => []
  end.

(** Listeners of a value-backed source that make no call on it. *)
Definition vpassive (l : Listener) (v : Value) : list ValueBacked.Call := [].

(** Updaters: every function adds one to a number and returns anything else
    as it is, like [v=>v+1] on numbers. *)
Definition increment (f : FnRef) (v : Value) : Value :=
  match v with
  | VNum z => VNum (z + 1)
  | _ => v
  end.

(** Functions that return themselves, like [const f=()=>f]. *)
Definition selfReturning (f : FnRef) (v : Value) : Value := VFun f.

(** Removers of which number [0] throws and the others return. *)
Definition throwingFirst (r : FnRef) (w : unit) : Join.Completion * unit :=
  match r with
  | 0 => (Join.Thrown, w)
  | _ => (Join.Returned, w)
  end.

(** The removers of one custom event source, number [l] the one that
    [evt(l)] returned. *)
Definition registryRemovers (l : FnRef) (w : Custom.World)
  : Join.Completion * Custom.World :=
  (Join.Returned, Custom.remover l w).

(** ** Calls that register *)

(** The call that registers [l] in the way [via]. *)
Definition registration_call (via : Custom.Via) (l : Listener) : Custom.Call :=
  match via with
  | Custom.ViaEvt => Custom.CallEvt l
  | Custom.ViaAddListener => Custom.CallAddListener l
  end.

(** Listener [0] registers listener [9] when it is invoked; the others make
    no call on the source. *)
Definition addsListener (l : Listener) (args : list Value) : list Custom.Call :=
  match l with
  | 0 => [Custom.CallAddListener 9]
  | _ => []
  end.

(** Listener [0] registers itself again when it is invoked. *)
Definition selfRegistering (l : Listener) (args : list Value) : list Custom.Call :=
  match l with
  | 0 => [Custom.CallEvt 0]
  | _ => []
  end.

(** Listener [0] removes listener [2] when it is invoked. *)
Definition removesLater (l : Listener) (args : list Value) : list Custom.Call :=
  match l with
  | 0 => [Custom.CallRemoveListener 2]
  | _ => []
  end.

(** Listener [0] of a value-backed source sets the value to zero whenever
    it is invoked, like a listener that clamps or resets what it is told;
    the others make no call on the source. *)
Definition resetting (l : Listener) (v : Value) : list ValueBacked.Call :=
  match l with
  | 0 => [ValueBacked.CallSetValue (VNum 0)]
  | _ => []
  end.

(** Listener [0] of a value-backed source calls its remover when invoked. *)
Definition vselfRemoving (l : Listener) (v : Value) : list ValueBacked.Call :=
  match l with
  | 0 => [ValueBacked.CallRemover 0]
  | _ => []
  end.

(** Listener [0] removes listener [1] when it is invoked. *)
Definition removesEarlier (l : Listener) (args : list Value) : list Custom.Call :=
  match l with
  | 0 => [Custom.CallRemoveListener 1]
  | _ => []
  end.

(** Whether a call only takes a listener out of the registry. *)
Definition removal_call (c : Custom.Call) : bool :=
  match c with
  | Custom.CallRemoveListener _ => true
  | Custom.CallRemover _ => true
  | _ => false
  end.

(** Every listener calls its own remover and removes the listener numbered
    after it. *)
Definition unsubscribing (l : Listener) (args : list Value) : list Custom.Call :=
  [Custom.CallRemover l; Custom.CallRemoveListener (S l)].

(** ** ExampleClass *)

Module Example.

(** The fields of [ExampleClass]: three private event sources and [_str]. *)
Record ExampleClass : Type := mkExampleClass {
  _onBake : Custom.World;
  _onStringChange : Custom.World;
  _str : Value;
  _onGo : Custom.World
}.

(** [new ExampleClass()]: [createEvent()], [createValueEvent()], the empty
    string and [createEventT()], which is [createCustomEvent] under its
    earlier name. *)
Definition new : ExampleClass :=
  mkExampleClass Custom.createEvent Custom.createValueEvent
    (VStr EmptyString) Custom.createCustomEvent.

(** The getter [str]. *)
Definition str (o : ExampleClass) : Value := _str o.

(** [obj.onStringChange(l)] and [obj.onStringChange.addListener(l)]: the
    getter hands out [_onStringChange.evt]. *)
Definition onStringChange (via : Custom.Via) (l : Listener) (o : ExampleClass)
  : ExampleClass :=
  mkExampleClass (_onBake o) (Custom.register via l (_onStringChange o))
    (_str o) (_onGo o).

Section Methods.

(** The calls a listener makes on the source that invokes it. *)
Variable body : Listener -> list Value -> list Custom.Call.

(** [shake()] *)
Definition shake (fuel : nat) (o : ExampleClass) : option ExampleClass :=
  match Custom.trigger body fuel [] (_onBake o) with
  | Some w => Some (mkExampleClass w (_onStringChange o) (_str o) (_onGo o))
  | None => None
  end.

(** [setStr(value)]: the assignment to [_str], then the trigger. *)
Definition setStr (fuel : nat) (value : Value) (o : ExampleClass)
  : option ExampleClass :=
  let o1 := mkExampleClass (_onBake o) (_onStringChange o) value (_onGo o) in
  match Custom.trigger body fuel [value] (_onStringChange o1) with
  | Some w => Some (mkExampleClass (_onBake o1) w (_str o1) (_onGo o1))
  | None => None
  end.

(** [go(speed,direction)] *)
Definition go (fuel : nat) (speed direction : Value) (o : ExampleClass)
  : option ExampleClass :=
  match Custom.trigger body fuel [speed; direction] (_onGo o) with
  | Some w => Some (mkExampleClass (_onBake o) (_onStringChange o) (_str o) w)
  | None => None
  end.

End Methods.

End Example.

(** * Properties *)

(** ** The registry as an array *)

Lemma nth_error_middle (pre suf : list Listener) (x : Listener) :
  nth_error (pre ++ x :: suf) (length pre) = Some x.
Proof.
  rewrite nth_error_app2 by lia.
  now rewrite Nat.sub_diag.
Qed.

Lemma splice_middle (pre suf : list Listener) (x : Listener) :
  splice (pre ++ x :: suf) (length pre) 1 = pre ++ suf.
Proof.
  unfold splice.
  rewrite firstn_app, Nat.sub_diag, firstn_all. simpl firstn.
  rewrite app_nil_r, skipn_app.
  replace (length pre + 1 - length pre) with 1 by lia.
  rewrite skipn_all2 by lia.
  reflexivity.
Qed.

(** The loop, entered at the end of [pre], fails when [item] is not ahead. *)
Lemma aryRemoveItem_from_absent (suf pre : list Listener) (item : Listener) (n : nat) :
  ~ In item suf ->
  aryRemoveItem_from n (length pre) (pre ++ suf) item = (pre ++ suf, false).
Proof.
  revert pre n.
  induction suf as [|x suf IH]; intros pre n Hnot.
  - destruct n; simpl; [reflexivity|].
    rewrite app_nil_r.
    now rewrite (proj2 (nth_error_None pre (length pre)) (le_n _)).
  - destruct n; simpl; [reflexivity|].
    rewrite nth_error_middle.
    destruct (Nat.eqb_spec x item) as [->|Hne].
    + exfalso. apply Hnot. now left.
    + specialize (IH (pre ++ [x]) n).
      rewrite length_app in IH. simpl in IH.
      rewrite Nat.add_1_r, <- app_assoc in IH. simpl in IH.
      apply IH. intros Hin. apply Hnot. now right.
Qed.

(** The loop, entered at the end of [pre], removes the first [item] ahead. *)
Lemma aryRemoveItem_from_present (mid pre post : list Listener) (item : Listener) (n : nat) :
  ~ In item mid ->
  length mid < n ->
  aryRemoveItem_from n (length pre) (pre ++ mid ++ item :: post) item
  = (pre ++ mid ++ post, true).
Proof.
  revert pre n.
  induction mid as [|x mid IH]; intros pre n Hnot Hlen.
  - destruct n; [simpl in Hlen; lia|]. simpl.
    rewrite nth_error_middle, Nat.eqb_refl.
    now rewrite splice_middle.
  - destruct n; [simpl in Hlen; lia|].
    simpl aryRemoveItem_from.
    change (pre ++ x :: mid ++ item :: post)
      with (pre ++ x :: (mid ++ item :: post)).
    rewrite nth_error_middle.
    destruct (Nat.eqb_spec x item) as [->|Hne].
    + exfalso. apply Hnot. now left.
    + specialize (IH (pre ++ [x]) n).
      rewrite length_app in IH. simpl in IH.
      rewrite Nat.add_1_r, <- !app_assoc in IH. simpl in IH.
      apply IH; [|simpl in Hlen; lia].
      intros Hin. apply Hnot. now right.
Qed.

Lemma aryRemoveItem_absent (ary : list Listener) (item : Listener) :
  ~ In item ary -> aryRemoveItem ary item = (ary, false).
Proof.
  intros Hnot. unfold aryRemoveItem.
  exact (aryRemoveItem_from_absent ary nil item (length ary) Hnot).
Qed.

Lemma aryRemoveItem_first (pre post : list Listener) (item : Listener) :
  ~ In item pre ->
  aryRemoveItem (pre ++ item :: post) item = (pre ++ post, true).
Proof.
  intros Hnot. unfold aryRemoveItem.
  apply (aryRemoveItem_from_present pre nil post item _ Hnot).
  rewrite length_app. simpl. lia.
Qed.

(** Every array that holds [item] splits at its first occurrence. *)
Lemma first_occurrence (ary : list Listener) (item : Listener) :
  In item ary ->
  exists pre post, ary = pre ++ item :: post /\ ~ In item pre.
Proof.
  induction ary as [|x ary IH]; intros Hin; [destruct Hin|].
  destruct (Nat.eq_dec x item) as [->|Hne].
  - exists [], ary. split; [reflexivity|intros []].
  - destruct Hin as [->|Hin]; [congruence|].
    destruct (IH Hin) as (pre & post & -> & Hnot).
    exists (x :: pre), post. split; [reflexivity|].
    intros [->|H]; [congruence|contradiction].
Qed.

Lemma aryRemoveItem_present (ary : list Listener) (item : Listener) :
  In item ary ->
  exists pre post,
    ary = pre ++ item :: post /\ ~ In item pre /\
    aryRemoveItem ary item = (pre ++ post, true).
Proof.
  intros Hin.
  destruct (first_occurrence ary item Hin) as (pre & post & -> & Hnot).
  exists pre, post. repeat split; [assumption|].
  now apply aryRemoveItem_first.
Qed.

(** One occurrence of [item] goes, and none of any other listener. *)
Lemma aryRemoveItem_count (ary : list Listener) (item x : Listener) :
  count_occ Nat.eq_dec (fst (aryRemoveItem ary item)) x
  = if Nat.eq_dec x item
    then pred (count_occ Nat.eq_dec ary x)
    else count_occ Nat.eq_dec ary x.
Proof.
  destruct (in_dec Nat.eq_dec item ary) as [Hin|Hnot].
  - destruct (aryRemoveItem_present ary item Hin) as (pre & post & -> & Hpre & ->).
    simpl fst. rewrite !count_occ_app. simpl.
    destruct (Nat.eq_dec item x) as [->|Hne].
    + destruct (Nat.eq_dec x x); [|congruence]. lia.
    + destruct (Nat.eq_dec x item); [congruence|reflexivity].
  - rewrite (aryRemoveItem_absent ary item Hnot). simpl fst.
    destruct (Nat.eq_dec x item) as [->|Hne]; [|reflexivity].
    rewrite (proj1 (count_occ_not_In Nat.eq_dec ary item) Hnot).
    reflexivity.
Qed.

(** [removeListener] on a custom event, by cases on the presence of the
    listener. *)
Lemma removeListener_present (f : Listener) (w : Custom.World) :
  In f (Custom.listeners w) ->
  exists pre post,
    Custom.listeners w = pre ++ f :: post /\ ~ In f pre /\
    Custom.removeListener f w = Custom.mkWorld (pre ++ post) (Custom.invoked w).
Proof.
  intros Hin. unfold Custom.removeListener.
  destruct (aryRemoveItem_present _ _ Hin) as (pre & post & E & Hpre & ->).
  now exists pre, post.
Qed.

Lemma removeListener_absent (f : Listener) (w : Custom.World) :
  ~ In f (Custom.listeners w) -> Custom.removeListener f w = w.
Proof.
  intros Hnot. unfold Custom.removeListener.
  rewrite aryRemoveItem_absent by assumption.
  now destruct w.
Qed.

(** ** Fuel *)

Lemma seq_calls_mono {C W : Type} (step step' : C -> W -> option W) :
  (forall c w r, step c w = Some r -> step' c w = Some r) ->
  forall cs w r, seq_calls step cs w = Some r -> seq_calls step' cs w = Some r.
Proof.
  intros Hstep cs.
  induction cs as [|c cs IH]; intros w r H; simpl in *; [assumption|].
  destruct (step c w) as [w'|] eqn:E; [|discriminate].
  rewrite (Hstep _ _ _ E). now apply IH.
Qed.

Section CustomDispatch.

Import Custom.

Variable body : Listener -> list Value -> list Call.

Lemma for_of_step (n : nat) (args : list Value) (i : nat) (w : World) :
  for_of body (S n) args i w
  = match nth_error (listeners w) i with
    | None => Some w
    | Some l =>
        match seq_calls (exec body n) (body l args) (enter l args w) with
        | Some w' => for_of body n args (S i) w'
        | None => None
        end
    end.
Proof. reflexivity. Qed.

Lemma for_of_end (fuel : nat) (args : list Value) (i : nat) (w : World) :
  nth_error (listeners w) i = None -> for_of body fuel args i w = Some w.
Proof. intros H. destruct fuel; simpl; now rewrite H. Qed.

(** A call that completes with some fuel completes alike with more. *)
Lemma custom_fuel_mono (n : nat) :
  (forall m c w r, n <= m -> exec body n c w = Some r -> exec body m c w = Some r) /\
  (forall m args i w r, n <= m ->
     for_of body n args i w = Some r -> for_of body m args i w = Some r).
Proof.
  induction n as [|n [IHe IHf]].
  - split.
    + intros m c w r _ H. discriminate H.
    + intros m args i w r _ H. simpl in H.
      destruct m; simpl; destruct (nth_error (listeners w) i);
        congruence.
  - split.
    + intros m c w r Hle H.
      destruct m as [|m]; [lia|].
      simpl in *. destruct c; try assumption.
      apply IHf; [lia|assumption].
    + intros m args i w r Hle H.
      destruct m as [|m]; [lia|].
      simpl in *.
      destruct (nth_error (listeners w) i) as [l|]; [|assumption].
      destruct (seq_calls (exec body n) (body l args) (enter l args w))
        as [w'|] eqn:E; [|discriminate].
      rewrite (seq_calls_mono (exec body n) (exec body m)
                 (fun c u r' => IHe m c u r' ltac:(lia)) _ _ _ E).
      apply IHf; [lia|assumption].
Qed.

Lemma trigger_fuel_mono (n m : nat) (args : list Value) (w r : World) :
  n <= m -> trigger body n args w = Some r -> trigger body m args w = Some r.
Proof. unfold trigger. apply (proj2 (custom_fuel_mono n)). Qed.

(** Listeners that make no call on the source are met one after another,
    from the iterator's index to the end of the array. *)
Lemma for_of_passive (args : list Value) (rest pre : list Listener)
      (tr : list (Listener * list Value)) (fuel : nat) :
  (forall l, In l rest -> body l args = []) ->
  length rest <= fuel ->
  for_of body fuel args (length pre) (mkWorld (pre ++ rest) tr)
  = Some (mkWorld (pre ++ rest) (tr ++ map (fun l => (l, args)) rest)).
Proof.
  revert pre tr fuel.
  induction rest as [|x rest IH]; intros pre tr fuel Hq Hlen.
  - rewrite !app_nil_r.
    destruct fuel; simpl;
      now rewrite (proj2 (nth_error_None pre (length pre)) (le_n _)).
  - destruct fuel as [|fuel]; [simpl in Hlen; lia|].
    simpl for_of. rewrite nth_error_middle.
    rewrite (Hq x (or_introl eq_refl)). simpl seq_calls.
    unfold enter. simpl listeners. simpl invoked.
    specialize (IH (pre ++ [x]) (tr ++ [(x, args)]) fuel).
    rewrite length_app in IH. simpl in IH.
    rewrite Nat.add_1_r, <- !app_assoc in IH. simpl in IH.
    rewrite IH; [reflexivity| |simpl in Hlen; lia].
    intros l Hl. apply Hq. now right.
Qed.

(** Over a stretch [mid] of such listeners the iterator advances to its
    end, at the cost of one unit of fuel for each. *)
Lemma for_of_passive_stretch (args : list Value) (mid pre suf : list Listener)
      (tr : list (Listener * list Value)) (fuel : nat) :
  (forall l, In l mid -> body l args = []) ->
  for_of body (length mid + fuel) args (length pre) (mkWorld (pre ++ mid ++ suf) tr)
  = for_of body fuel args (length (pre ++ mid))
      (mkWorld (pre ++ mid ++ suf) (tr ++ map (fun l => (l, args)) mid)).
Proof.
  revert pre tr.
  induction mid as [|x mid IH]; intros pre tr Hq.
  - simpl. now rewrite !app_nil_r.
  - simpl length. simpl for_of.
    change (pre ++ (x :: mid) ++ suf) with (pre ++ x :: (mid ++ suf)).
    rewrite nth_error_middle.
    rewrite (Hq x (or_introl eq_refl)). simpl seq_calls.
    unfold enter. simpl listeners. simpl invoked.
    specialize (IH (pre ++ [x]) (tr ++ [(x, args)])).
    rewrite length_app in IH. simpl in IH.
    rewrite Nat.add_1_r, <- !app_assoc in IH. simpl in IH.
    rewrite IH by (intros l Hl; apply Hq; now right).
    rewrite !length_app. reflexivity.
Qed.

(** A listener registered once at the end of [pre] that calls its own
    remover: the array closes up under the iterator, whose next index is
    then that of the second listener after it. *)
Lemma for_of_self_removal (args : list Value) (a : Listener)
      (pre post : list Listener) (tr : list (Listener * list Value)) (fuel : nat) :
  ~ In a pre ->
  body a args = [CallRemover a] ->
  (forall l, In l (pre ++ post) -> body l args = []) ->
  length (pre ++ a :: post) < fuel ->
  for_of body fuel args 0 (mkWorld (pre ++ a :: post) tr)
  = Some (mkWorld (pre ++ post)
            (tr ++ map (fun l => (l, args)) (pre ++ a :: tl post))).
Proof.
  intros Hpre Ha Hq Hlen.
  rewrite length_app in Hlen. simpl in Hlen.
  replace fuel with (length pre + (fuel - length pre)) by lia.
  pose proof (for_of_passive_stretch args pre [] (a :: post) tr
                (fuel - length pre)) as Hs.
  simpl app in Hs. simpl length in Hs. rewrite Hs; clear Hs.
  2:{ intros l Hl. apply Hq. apply in_or_app. now left. }
  destruct (fuel - length pre) as [|[|n]] eqn:En; [lia|lia|].
  rewrite for_of_step. simpl listeners.
  rewrite nth_error_middle, Ha.
  change (seq_calls (exec body (S n)) [CallRemover a]
            (enter a args (mkWorld (pre ++ a :: post)
                             (tr ++ map (fun l => (l, args)) pre))))
    with (Some (mkWorld (fst (aryRemoveItem (pre ++ a :: post) a))
                  ((tr ++ map (fun l => (l, args)) pre) ++ [(a, args)]))).
  rewrite aryRemoveItem_first by assumption. simpl fst.
  rewrite map_app. simpl map.
  destruct post as [|p post].
  - simpl tl. simpl map. rewrite !app_nil_r, <- app_assoc.
    apply for_of_end. simpl listeners.
    apply nth_error_None. lia.
  - simpl tl.
    pose proof (for_of_passive args post (pre ++ [p])
                  ((tr ++ map (fun l => (l, args)) pre) ++ [(a, args)]) (S n)) as Hp.
    rewrite length_app in Hp. simpl length in Hp.
    rewrite Nat.add_1_r, <- !app_assoc in Hp. simpl app in Hp.
    rewrite <- !app_assoc. simpl app.
    rewrite Hp; [reflexivity| |simpl in Hlen; lia].
    intros l Hl. apply Hq. apply in_or_app. right. now right.
Qed.

Lemma trigger_passive (args : list Value) (w : World) (fuel : nat) :
  (forall l, In l (listeners w) -> body l args = []) ->
  length (listeners w) <= fuel ->
  trigger body fuel args w
  = Some (mkWorld (listeners w)
            (invoked w ++ map (fun l => (l, args)) (listeners w))).
Proof.
  intros Hq Hlen. destruct w as [ls tr]. simpl in *.
  exact (for_of_passive args ls [] tr fuel Hq Hlen).
Qed.

End CustomDispatch.

(** ** Registration, removal and dispatch on a custom event *)

Lemma register_all_listeners (rs : list (Custom.Via * Listener)) (w : Custom.World) :
  Custom.listeners (Custom.register_all rs w) = Custom.listeners w ++ map snd rs.
Proof.
  revert w. unfold Custom.register_all.
  induction rs as [|[via l] rs IH]; intros w; simpl.
  - now rewrite app_nil_r.
  - rewrite IH. destruct via; simpl; unfold push; now rewrite <- app_assoc.
Qed.

(** C6. Registrations enter the registry in the order they are made.  On a
    source whose registered listeners L1..LN leave it alone while they run,
    [trigger(...args)] completes, invokes L1..LN in insertion order, each
    registration once, with [args] unchanged, and leaves the registry as it
    was. *)
Theorem trigger_invokes_in_insertion_order :
  forall (body : Listener -> list Value -> list Custom.Call)
         (args : list Value) (w : Custom.World) (fuel : nat),
    (forall l, In l (Custom.listeners w) -> body l args = []) ->
    length (Custom.listeners w) <= fuel ->
    (forall rs,
       Custom.listeners (Custom.register_all rs Custom.createCustomEvent)
       = map snd rs) /\
    exists w',
      Custom.trigger body fuel args w = Some w' /\
      Custom.listeners w' = Custom.listeners w /\
      Custom.invoked w'
      = Custom.invoked w ++ map (fun l => (l, args)) (Custom.listeners w).
Proof.
  intros body args w fuel Hq Hlen.
  split; [intros rs; apply register_all_listeners|].
  eexists. split; [now apply trigger_passive|].
  split; reflexivity.
Qed.

Lemma trigger_invokes_in_insertion_order_witness :
  let w := Custom.register_all
             [(Custom.ViaEvt, 4); (Custom.ViaAddListener, 5); (Custom.ViaEvt, 4)]
             Custom.createCustomEvent in
  let args := [VStr "fast"; VStr "left"] in
  length (Custom.listeners w) <= 3 /\
  exists w',
    Custom.trigger passive 3 args w = Some w' /\
    Custom.listeners w' = [4; 5; 4] /\
    Custom.invoked w' = [(4, args); (5, args); (4, args)].
Proof.
  intros w args.
  split; [simpl; lia|].
  apply (trigger_invokes_in_insertion_order passive args w 3).
  - intros l _. reflexivity.
  - simpl. lia.
Defined.

(** C8. [evt.removeListener(f)] removes the first registry entry identical
    to [f] and nothing else; when no entry is identical to [f] the source is
    left as it was.  The call always completes. *)
Theorem removeListener_first_match_or_noop :
  forall (f : Listener) (w : Custom.World),
    (In f (Custom.listeners w) ->
     exists pre post,
       Custom.listeners w = pre ++ f :: post /\ ~ In f pre /\
       Custom.removeListener f w = Custom.mkWorld (pre ++ post) (Custom.invoked w)) /\
    (~ In f (Custom.listeners w) -> Custom.removeListener f w = w) /\
    (forall body fuel,
       Custom.exec body (S fuel) (Custom.CallRemoveListener f) w
       = Some (Custom.removeListener f w)).
Proof.
  intros f w. split; [apply removeListener_present|].
  split; [apply removeListener_absent|].
  reflexivity.
Qed.

Lemma removeListener_first_match_or_noop_witness :
  Custom.removeListener 2 (Custom.mkWorld [1; 2; 3; 2] []) = Custom.mkWorld [1; 3; 2] [] /\
  Custom.removeListener 9 (Custom.mkWorld [1; 2; 3; 2] []) = Custom.mkWorld [1; 2; 3; 2] [].
Proof.
  destruct (removeListener_first_match_or_noop 9 (Custom.mkWorld [1; 2; 3; 2] []))
    as (_ & Hnoop & _).
  split; [reflexivity|].
  apply Hnoop. simpl. intuition lia.
Defined.

(** C2, as the code has it.  The remover that [evt(l)] returns removes the
    first registry entry identical to [l], one entry at each invocation, and
    changes nothing once no entry identical to [l] is left.  So it undoes
    the registration exactly and is idempotent when [l] is not registered
    otherwise; when [l] is registered several times, invoking it again
    removes a further occurrence. *)
Theorem remover_removes_first_occurrence :
  forall (l : Listener) (w : Custom.World),
    let r := fst (Custom.evt l w) in
    let w' := snd (Custom.evt l w) in
    Custom.listeners w' = Custom.listeners w ++ [l] /\
    (forall u, In l (Custom.listeners u) ->
       exists pre post,
         Custom.listeners u = pre ++ l :: post /\ ~ In l pre /\
         r u = Custom.mkWorld (pre ++ post) (Custom.invoked u)) /\
    (forall u, ~ In l (Custom.listeners u) -> r u = u) /\
    (forall u x,
       count_occ Nat.eq_dec (Custom.listeners (r u)) x
       = if Nat.eq_dec x l
         then pred (count_occ Nat.eq_dec (Custom.listeners u) x)
         else count_occ Nat.eq_dec (Custom.listeners u) x) /\
    (~ In l (Custom.listeners w) -> r w' = w /\ r (r w') = r w').
Proof.
  intros l w. simpl.
  unfold Custom.remover.
  split; [reflexivity|].
  split.
  { intros u Hin. now apply removeListener_present. }
  split.
  { intros u Hnot. now apply removeListener_absent. }
  split.
  { intros u x. unfold Custom.removeListener. simpl.
    apply aryRemoveItem_count. }
  intros Hnot.
  assert (E : Custom.removeListener l
                (Custom.mkWorld (push (Custom.listeners w) l) (Custom.invoked w)) = w).
  { destruct w as [ls tr]. unfold Custom.removeListener, push. simpl in *.
    replace (ls ++ [l]) with (ls ++ l :: []) by reflexivity.
    rewrite aryRemoveItem_first by assumption.
    simpl. now rewrite app_nil_r. }
  split; [exact E|].
  rewrite E. now apply removeListener_absent.
Qed.

Lemma remover_removes_first_occurrence_witness :
  let r := fst (Custom.evt 7 (Custom.mkWorld [1; 2] [])) in
  let w' := snd (Custom.evt 7 (Custom.mkWorld [1; 2] [])) in
  ~ In 7 [1; 2] /\
  r w' = Custom.mkWorld [1; 2] [] /\ r (r w') = r w'.
Proof.
  intros r w'.
  assert (Hnot : ~ In 7 [1; 2]) by (simpl; intuition lia).
  split; [exact Hnot|].
  destruct (remover_removes_first_occurrence 7 (Custom.mkWorld [1; 2] []))
    as (_ & _ & _ & _ & H).
  exact (H Hnot).
Defined.

(** C2, as stated, fails: with the same listener registered twice, the
    second invocation of the remover is not a no-op, it removes the other
    registration. *)
Lemma remover_twice_removes_two_registrations :
  let w1 := snd (Custom.evt 7 Custom.createCustomEvent) in
  let r := fst (Custom.evt 7 w1) in
  let w2 := snd (Custom.evt 7 w1) in
  Custom.listeners w2 = [7; 7] /\
  Custom.listeners (r w2) = [7] /\
  Custom.listeners (r (r w2)) = [] /\
  r (r w2) <> r w2.
Proof.
  simpl. repeat split; try reflexivity.
  intros H. discriminate H.
Qed.

Lemma map_fst_pair_args (args : list Value) (ls : list Listener) :
  map fst (map (fun l => (l, args)) ls) = ls.
Proof.
  induction ls as [|x ls IH]; simpl; [reflexivity|now rewrite IH].
Qed.

(** C7. A listener registered twice, by [evt] or by [addListener], is
    entered twice in the registry and invoked twice more at each [trigger];
    [removeListener] and the removers take out one occurrence at a time,
    the first, and keep the others in order. *)
Theorem duplicate_registration_invoked_twice :
  forall (body : Listener -> list Value -> list Custom.Call)
         (f : Listener) (args : list Value) (via1 via2 : Custom.Via)
         (w : Custom.World) (fuel : nat),
    let w2 := Custom.register via2 f (Custom.register via1 f w) in
    (forall l, In l (Custom.listeners w2) -> body l args = []) ->
    length (Custom.listeners w2) <= fuel ->
    Custom.listeners w2 = Custom.listeners w ++ [f; f] /\
    (exists w3 delta,
       Custom.trigger body fuel args w2 = Some w3 /\
       Custom.invoked w3 = Custom.invoked w2 ++ delta /\
       delta = map (fun l => (l, args)) (Custom.listeners w ++ [f; f]) /\
       Custom.times_invoked f delta
       = count_occ Nat.eq_dec (Custom.listeners w) f + 2) /\
    Custom.remover f = Custom.removeListener f /\
    (forall u, In f (Custom.listeners u) ->
       exists pre post,
         Custom.listeners u = pre ++ f :: post /\ ~ In f pre /\
         Custom.listeners (Custom.removeListener f u) = pre ++ post /\
         count_occ Nat.eq_dec (pre ++ post) f
         = pred (count_occ Nat.eq_dec (Custom.listeners u) f)) /\
    (~ In f (Custom.listeners w) ->
       Custom.listeners (Custom.removeListener f w2) = Custom.listeners w ++ [f] /\
       Custom.listeners (Custom.removeListener f (Custom.removeListener f w2))
       = Custom.listeners w).
Proof.
  intros body f args via1 via2 w fuel w2 Hq Hlen.
  assert (E2 : Custom.listeners w2 = Custom.listeners w ++ [f; f]).
  { subst w2. destruct via1, via2; simpl; unfold push;
      now rewrite <- app_assoc. }
  split; [exact E2|].
  split.
  { exists (Custom.mkWorld (Custom.listeners w2)
              (Custom.invoked w2 ++ map (fun l => (l, args)) (Custom.listeners w2))),
           (map (fun l => (l, args)) (Custom.listeners w ++ [f; f])).
    split; [now apply trigger_passive|].
    split; [simpl; now rewrite E2|].
    split; [reflexivity|].
    unfold Custom.times_invoked.
    rewrite map_fst_pair_args, count_occ_app.
    rewrite !count_occ_cons_eq by reflexivity.
    simpl. reflexivity. }
  split; [reflexivity|].
  split.
  { intros u Hin.
    destruct (aryRemoveItem_present _ _ Hin) as (pre & post & E & Hpre & Hrm).
    exists pre, post. unfold Custom.removeListener. simpl.
    rewrite Hrm. repeat split; try assumption.
    rewrite E, !count_occ_app.
    rewrite count_occ_cons_eq by reflexivity.
    lia. }
  intros Hnot.
  assert (E1 : Custom.listeners (Custom.removeListener f w2) = Custom.listeners w ++ [f]).
  { unfold Custom.removeListener. simpl. rewrite E2.
    change (Custom.listeners w ++ [f; f]) with (Custom.listeners w ++ f :: [f]).
    now rewrite aryRemoveItem_first. }
  split; [exact E1|].
  change (fst (aryRemoveItem (Custom.listeners (Custom.removeListener f w2)) f)
          = Custom.listeners w).
  rewrite E1.
  change (Custom.listeners w ++ [f]) with (Custom.listeners w ++ f :: []).
  rewrite aryRemoveItem_first by assumption.
  simpl. apply app_nil_r.
Qed.

Lemma duplicate_registration_invoked_twice_witness :
  let w2 := Custom.register Custom.ViaAddListener 3
              (Custom.register Custom.ViaEvt 3 (Custom.mkWorld [1] [])) in
  length (Custom.listeners w2) <= 3 /\
  Custom.trigger passive 3 [] w2
  = Some (Custom.mkWorld [1; 3; 3] [(1, []); (3, []); (3, [])]) /\
  Custom.listeners (Custom.removeListener 3 w2) = [1; 3].
Proof.
  intros w2.
  assert (Hlen : length (Custom.listeners w2) <= 3) by (simpl; lia).
  split; [exact Hlen|].
  destruct (duplicate_registration_invoked_twice
              passive 3 [] Custom.ViaEvt Custom.ViaAddListener
              (Custom.mkWorld [1] []) 3 (fun l _ => eq_refl) Hlen)
    as (_ & (w3 & delta & Ht & Hi & Hd & _) & _ & _ & Hr).
  split.
  - fold w2 in Ht. rewrite Ht. f_equal.
    destruct w3 as [ls tr]. simpl in Hi. subst tr delta.
    f_equal.
    pose proof (trigger_passive passive [] w2 3 (fun l _ => eq_refl) Hlen) as Hp.
    rewrite Ht in Hp. now inversion Hp.
  - apply Hr. simpl. intuition lia.
Defined.

(** ** A listener that removes itself during dispatch *)

(** C1, as the code has it.  [trigger] walks the live array by index.  When
    a listener that is registered once removes itself through its remover
    while it is invoked (the other listeners leaving the source alone), the
    array closes up under the iterator: the listener registered right after
    it is not invoked in that [trigger] call, every listener registered
    after that one still is, in order, and the next [trigger] call invokes
    the listeners that remain, the skipped one among them and the removed
    one not. *)
Theorem self_removal_skips_following_listener :
  forall (body : Listener -> list Value -> list Custom.Call)
         (a : Listener) (args : list Value) (pre post : list Listener)
         (tr : list (Listener * list Value)) (fuel : nat),
    ~ In a pre ->
    ~ In a post ->
    body a args = [Custom.CallRemover a] ->
    (forall l, In l (pre ++ post) -> body l args = []) ->
    length (pre ++ a :: post) < fuel ->
    exists w1 w2,
      Custom.trigger body fuel args (Custom.mkWorld (pre ++ a :: post) tr) = Some w1 /\
      Custom.listeners w1 = pre ++ post /\
      Custom.invoked w1 = tr ++ map (fun l => (l, args)) (pre ++ a :: tl post) /\
      Custom.trigger body fuel args w1 = Some w2 /\
      Custom.listeners w2 = pre ++ post /\
      Custom.invoked w2 = Custom.invoked w1 ++ map (fun l => (l, args)) (pre ++ post) /\
      Custom.times_invoked a (map (fun l => (l, args)) (pre ++ post)) = 0.
Proof.
  intros body a args pre post tr fuel Hpre Hpost Ha Hq Hlen.
  eexists. eexists.
  split; [now apply for_of_self_removal|].
  split; [reflexivity|].
  split; [reflexivity|].
  split.
  { apply trigger_passive; simpl; [assumption|].
    rewrite length_app in *. simpl in Hlen. lia. }
  split; [reflexivity|].
  split; [reflexivity|].
  unfold Custom.times_invoked. rewrite map_fst_pair_args.
  apply count_occ_not_In.
  intros Hin. apply in_app_or in Hin. tauto.
Qed.

Lemma self_removal_skips_following_listener_witness :
  ~ In 0 [3] /\ ~ In 0 [1; 2] /\
  length ([3] ++ 0 :: [1; 2]) < 5 /\
  exists w1 w2,
    Custom.trigger selfRemoving 5 [] (Custom.mkWorld [3; 0; 1; 2] []) = Some w1 /\
    Custom.listeners w1 = [3; 1; 2] /\
    Custom.invoked w1 = [(3, []); (0, []); (2, [])] /\
    Custom.trigger selfRemoving 5 [] w1 = Some w2 /\
    Custom.listeners w2 = [3; 1; 2] /\
    Custom.invoked w2 = Custom.invoked w1 ++ [(3, []); (1, []); (2, [])] /\
    Custom.times_invoked 0 [(3, []); (1, []); (2, [])] = 0.
Proof.
  assert (H1 : ~ In 0 [3]) by (simpl; intuition lia).
  assert (H2 : ~ In 0 [1; 2]) by (simpl; intuition lia).
  assert (H3 : length ([3] ++ 0 :: [1; 2]) < 5) by (simpl; lia).
  repeat (split; [assumption|]).
  apply (self_removal_skips_following_listener
           selfRemoving 0 [] [3] [1; 2] [] 5 H1 H2 eq_refl); [|exact H3].
  intros l Hl. simpl in Hl.
  destruct Hl as [<-|[<-|[<-|[]]]]; reflexivity.
Defined.

(** C1, as stated, fails: of two listeners registered in a row, the first
    removing itself when invoked, the second is not invoked by the
    [trigger] call, whatever the fuel. *)
Lemma self_removal_listener_after_not_invoked :
  let w := snd (Custom.evt 1 (snd (Custom.evt 0 Custom.createCustomEvent))) in
  Custom.listeners w = [0; 1] /\
  Custom.trigger selfRemoving 3 [] w = Some (Custom.mkWorld [1] [(0, [])]) /\
  forall fuel w',
    Custom.trigger selfRemoving fuel [] w = Some w' ->
    ~ In 1 (map fst (Custom.invoked w')).
Proof.
  intros w.
  assert (H3 : Custom.trigger selfRemoving 3 [] w = Some (Custom.mkWorld [1] [(0, [])]))
    by reflexivity.
  split; [reflexivity|].
  split; [exact H3|].
  intros fuel w' H.
  apply (trigger_fuel_mono selfRemoving fuel (fuel + 3)) in H; [|lia].
  apply (trigger_fuel_mono selfRemoving 3 (fuel + 3)) in H3; [|lia].
  rewrite H in H3. injection H3 as ->.
  simpl. intuition lia.
Qed.

(** ** Values *)

Lemma strict_eq_true (a b : Value) : strict_eq a b = true -> a = b.
Proof.
  destruct a, b; simpl; intros H; try discriminate; try reflexivity; f_equal.
  - now apply Bool.eqb_prop.
  - now apply Z.eqb_eq.
  - now apply String.eqb_eq.
  - now apply Nat.eqb_eq.
  - now apply Nat.eqb_eq.
Qed.

Lemma aryRemoveItem_length (ary : list Listener) (item : Listener) :
  length (fst (aryRemoveItem ary item)) <= length ary.
Proof.
  destruct (in_dec Nat.eq_dec item ary) as [Hin|Hnot].
  - destruct (aryRemoveItem_present ary item Hin) as (pre & post & -> & _ & ->).
    simpl. rewrite !length_app. simpl. lia.
  - now rewrite aryRemoveItem_absent.
Qed.

(** ** The value-backed event *)

Section ValueBackedDispatch.

Import ValueBacked.

Variable apply_fn : FnRef -> Value -> Value.
Variable body : Listener -> Value -> list Call.

Lemma vb_for_of_step (n i : nat) (w : World) :
  for_of apply_fn body (S n) i w
  = match nth_error (listeners w) i with
    | None => Some w
    | Some l =>
        match seq_calls (exec apply_fn body n) (body l (value w)) (enter l w) with
        | Some w' => for_of apply_fn body n (S i) w'
        | None => None
        end
    end.
Proof. reflexivity. Qed.

Lemma vb_for_of_end (fuel i : nat) (w : World) :
  nth_error (listeners w) i = None -> for_of apply_fn body fuel i w = Some w.
Proof. intros H. destruct fuel; simpl; now rewrite H. Qed.

(** Listeners that make no call on the source are met one after another
    and passed the stored value, which stays what it is. *)
Lemma vb_for_of_passive (v : Value) (rest pre : list Listener)
      (tr : list (Listener * Value)) (fuel : nat) :
  (forall l, In l rest -> body l v = []) ->
  length rest <= fuel ->
  for_of apply_fn body fuel (length pre) (mkWorld v (pre ++ rest) tr)
  = Some (mkWorld v (pre ++ rest) (tr ++ map (fun l => (l, v)) rest)).
Proof.
  revert pre tr fuel.
  induction rest as [|x rest IH]; intros pre tr fuel Hq Hlen.
  - rewrite !app_nil_r. apply vb_for_of_end.
    simpl. apply nth_error_None. lia.
  - destruct fuel as [|fuel]; [simpl in Hlen; lia|].
    rewrite vb_for_of_step. simpl listeners. simpl value.
    rewrite nth_error_middle.
    rewrite (Hq x (or_introl eq_refl)). simpl seq_calls.
    unfold enter. simpl listeners. simpl invoked. simpl value.
    specialize (IH (pre ++ [x]) (tr ++ [(x, v)]) fuel).
    rewrite length_app in IH. simpl in IH.
    rewrite Nat.add_1_r, <- !app_assoc in IH. simpl in IH.
    rewrite IH; [reflexivity| |simpl in Hlen; lia].
    intros l Hl. apply Hq. now right.
Qed.

Lemma vb_dispatch_passive (w : World) (fuel : nat) :
  (forall l, In l (listeners w) -> body l (value w) = []) ->
  length (listeners w) <= fuel ->
  for_of apply_fn body fuel 0 w
  = Some (mkWorld (value w) (listeners w)
            (invoked w ++ map (fun l => (l, value w)) (listeners w))).
Proof.
  intros Hq Hlen. destruct w as [v ls tr]. simpl in *.
  exact (vb_for_of_passive v ls [] tr fuel Hq Hlen).
Qed.

(** With such listeners [setValue] completes, returns the candidate and
    leaves it stored, whether or not it dispatched. *)
Lemma setValue_passive (v : Value) (w : World) (fuel : nat) :
  let cand := match as_function v with
              | Some f => apply_fn f (value w)
              | None => v
              end in
  (forall l, In l (listeners w) -> body l cand = []) ->
  length (listeners w) <= fuel ->
  setValue apply_fn body fuel v w
  = Some (cand,
          if strict_eq cand (value w) then w
          else mkWorld cand (listeners w)
                 (invoked w ++ map (fun l => (l, cand)) (listeners w))).
Proof.
  intros cand Hq Hlen.
  unfold setValue, setValue_over. fold cand.
  destruct (strict_eq cand (value w)) eqn:E.
  - now rewrite (strict_eq_true _ _ E).
  - rewrite vb_dispatch_passive by assumption. reflexivity.
Qed.

(** One call from outside on a source whose listeners make no call: it
    completes, the stored value moves to the candidate when there is one
    that is not [===] to it, and the array grows by one entry at most. *)
Lemma exec_passive (c : Call) (w : World) (fuel : nat) :
  (forall l v, body l v = []) ->
  length (listeners w) < fuel ->
  exists w',
    exec apply_fn body fuel c w = Some w' /\
    value w' = (match candidate apply_fn c (value w) with
                | Some new => if strict_eq new (value w) then value w else new
                | None => value w
                end) /\
    length (listeners w') <= S (length (listeners w)).
Proof.
  intros Hq Hlen.
  destruct fuel as [|n]; [lia|].
  destruct c as [l|l|l|l|v|v]; simpl.
  - eexists. split; [reflexivity|]. simpl. unfold push.
    rewrite length_app. simpl. split; [reflexivity|lia].
  - eexists. split; [reflexivity|]. simpl. unfold push.
    rewrite length_app. simpl. split; [reflexivity|lia].
  - eexists. split; [reflexivity|]. simpl. split; [reflexivity|].
    pose proof (aryRemoveItem_length (listeners w) l). lia.
  - eexists. split; [reflexivity|]. simpl. split; [reflexivity|].
    pose proof (aryRemoveItem_length (listeners w) l). lia.
  - change (setValue_over apply_fn (for_of apply_fn body n 0) v w)
      with (setValue apply_fn body n v w).
    rewrite setValue_passive; [|intros; apply Hq|lia].
    simpl. eexists. split; [reflexivity|].
    destruct (strict_eq _ (value w)); simpl; split; try reflexivity; lia.
  - unfold trigger_over.
    destruct (strict_eq v (value w)).
    + eexists. split; [reflexivity|]. split; [reflexivity|lia].
    + rewrite vb_dispatch_passive; [|intros; apply Hq|simpl; lia].
      eexists. split; [reflexivity|]. simpl. split; [reflexivity|lia].
Qed.

End ValueBackedDispatch.

(** C3. [setValue(next)] takes as candidate [next(value)] when [next] is a
    function and [next] otherwise.  When the candidate is [===] to the stored
    value, nothing is stored, no listener is invoked and the stored value is
    returned.  Otherwise the candidate is stored, each registered listener
    (leaving the source alone while it runs) is invoked with it, in
    insertion order, and it is returned. *)
Theorem setValue_compare_mutate_dispatch :
  forall (apply_fn : FnRef -> Value -> Value)
         (body : Listener -> Value -> list ValueBacked.Call)
         (next : Value) (w : ValueBacked.World) (fuel : nat),
    let cand := match next with
                | VFun f => apply_fn f (ValueBacked.value w)
                | _ => next
                end in
    (strict_eq cand (ValueBacked.value w) = true ->
     ValueBacked.setValue apply_fn body fuel next w = Some (ValueBacked.value w, w)) /\
    (strict_eq cand (ValueBacked.value w) = false ->
     (forall l, In l (ValueBacked.listeners w) -> body l cand = []) ->
     length (ValueBacked.listeners w) <= fuel ->
     ValueBacked.setValue apply_fn body fuel next w
     = Some (cand,
             ValueBacked.mkWorld cand (ValueBacked.listeners w)
               (ValueBacked.invoked w
                ++ map (fun l => (l, cand)) (ValueBacked.listeners w)))).
Proof.
  intros apply_fn body next w fuel cand.
  assert (Ec : cand = match as_function next with
                      | Some f => apply_fn f (ValueBacked.value w)
                      | None => next
                      end)
    by (subst cand; destruct next; reflexivity).
  split.
  - intros E. unfold ValueBacked.setValue, ValueBacked.setValue_over.
    rewrite <- Ec. now rewrite E.
  - intros E Hq Hlen.
    rewrite Ec in Hq.
    rewrite (setValue_passive apply_fn body next w fuel Hq Hlen).
    rewrite <- Ec. now rewrite E.
Qed.

Lemma setValue_compare_mutate_dispatch_witness :
  let w := ValueBacked.mkWorld (VStr "chicken") [1; 2] [] in
  (strict_eq (VStr "chicken") (ValueBacked.value w) = true /\
   ValueBacked.setValue increment vpassive 2 (VStr "chicken") w
   = Some (VStr "chicken", w)) /\
  (strict_eq (VStr "rat") (ValueBacked.value w) = false /\
   length (ValueBacked.listeners w) <= 2 /\
   ValueBacked.setValue increment vpassive 2 (VStr "rat") w
   = Some (VStr "rat",
           ValueBacked.mkWorld (VStr "rat") [1; 2]
             [(1, VStr "rat"); (2, VStr "rat")])).
Proof.
  intros w.
  split.
  - split; [reflexivity|].
    apply (setValue_compare_mutate_dispatch increment vpassive (VStr "chicken") w 2).
    reflexivity.
  - split; [reflexivity|]. split; [simpl; lia|].
    apply (setValue_compare_mutate_dispatch increment vpassive (VStr "rat") w 2).
    + reflexivity.
    + intros l _. reflexivity.
    + simpl. lia.
Defined.

(** C4. For a value [v] that is not a function, [trigger(v)] and
    [setValue(v)] make the same comparison, the same assignment and the same
    dispatch: they end in the same state or both fail to complete, whatever
    the listeners do, called from outside or from a listener. *)
Theorem trigger_agrees_with_setValue :
  forall (apply_fn : FnRef -> Value -> Value)
         (body : Listener -> Value -> list ValueBacked.Call)
         (v : Value) (w : ValueBacked.World) (fuel : nat),
    as_function v = None ->
    option_map snd (ValueBacked.setValue apply_fn body fuel v w)
    = ValueBacked.trigger apply_fn body fuel v w /\
    ValueBacked.exec apply_fn body fuel (ValueBacked.CallSetValue v) w
    = ValueBacked.exec apply_fn body fuel (ValueBacked.CallTrigger v) w.
Proof.
  intros apply_fn body v w fuel Hv.
  assert (H : forall loop,
             option_map snd (ValueBacked.setValue_over apply_fn loop v w)
             = ValueBacked.trigger_over loop v w).
  { intros loop. unfold ValueBacked.setValue_over, ValueBacked.trigger_over.
    rewrite Hv.
    destruct (strict_eq v (ValueBacked.value w)); [reflexivity|].
    destruct (loop (ValueBacked.assign v w)); reflexivity. }
  split; [apply H|].
  destruct fuel; [reflexivity|]. simpl. apply H.
Qed.

Lemma trigger_agrees_with_setValue_witness :
  let w := ValueBacked.mkWorld (VNum 5) [1; 2] [] in
  as_function (VNum 6) = None /\
  option_map snd (ValueBacked.setValue increment vpassive 2 (VNum 6) w)
  = ValueBacked.trigger increment vpassive 2 (VNum 6) w /\
  ValueBacked.trigger increment vpassive 2 (VNum 6) w
  = Some (ValueBacked.mkWorld (VNum 6) [1; 2] [(1, VNum 6); (2, VNum 6)]).
Proof.
  intros w.
  split; [reflexivity|].
  split; [|reflexivity].
  apply (trigger_agrees_with_setValue increment vpassive (VNum 6) w 2).
  reflexivity.
Defined.

(** C5. After any sequence of calls on a value-backed source (its
    listeners making no call on it), [getValue()] returns the candidate of
    the last [setValue] or [trigger] whose candidate was not equal to the
    value stored before it, or the value held at the start when there was
    none. *)
Theorem getValue_is_last_successful :
  forall (apply_fn : FnRef -> Value -> Value)
         (body : Listener -> Value -> list ValueBacked.Call)
         (calls : list ValueBacked.Call) (w : ValueBacked.World) (fuel : nat),
    (forall l v, body l v = []) ->
    length (ValueBacked.listeners w) + length calls <= fuel ->
    exists w',
      ValueBacked.run apply_fn body fuel calls w = Some w' /\
      ValueBacked.getValue w'
      = ValueBacked.last_successful apply_fn (ValueBacked.value w) calls.
Proof.
  intros apply_fn body calls.
  induction calls as [|c calls IH]; intros w fuel Hq Hlen.
  - exists w. split; reflexivity.
  - simpl in Hlen.
    destruct (exec_passive apply_fn body c w fuel Hq ltac:(lia))
      as (w1 & He & Hv & Hl).
    destruct (IH w1 fuel Hq ltac:(lia)) as (w' & Hr & Hg).
    exists w'. unfold ValueBacked.run in *. simpl. rewrite He.
    split; [exact Hr|].
    rewrite Hg, Hv.
    destruct (ValueBacked.candidate apply_fn c (ValueBacked.value w)) as [new|];
      [|reflexivity].
    destruct (strict_eq new (ValueBacked.value w)); reflexivity.
Qed.

Lemma getValue_is_last_successful_witness :
  let calls := [ValueBacked.CallSetValue (VNum 5); ValueBacked.CallEvt 1;
                ValueBacked.CallSetValue (VFun 0); ValueBacked.CallTrigger (VNum 6);
                ValueBacked.CallTrigger VNaN; ValueBacked.CallSetValue (VNum 6);
                ValueBacked.CallSetValue (VNum 6)] in
  let w := ValueBacked.createValueBackedEvent (VNum 5) in
  length (ValueBacked.listeners w) + length calls <= 7 /\
  exists w',
    ValueBacked.run increment vpassive 7 calls w = Some w' /\
    ValueBacked.getValue w' = VNum 6 /\
    ValueBacked.invoked w' = [(1, VNum 6); (1, VNaN); (1, VNum 6)].
Proof.
  intros calls w.
  assert (Hlen : length (ValueBacked.listeners w) + length calls <= 7)
    by (simpl; lia).
  split; [exact Hlen|].
  destruct (getValue_is_last_successful increment vpassive calls w 7
              (fun _ _ => eq_refl) Hlen) as (w' & Hr & Hg).
  exists w'. split; [exact Hr|]. split; [exact Hg|].
  assert (E : ValueBacked.run increment vpassive 7 calls w
              = Some (ValueBacked.mkWorld (VNum 6) [1]
                        [(1, VNum 6); (1, VNaN); (1, VNum 6)])) by reflexivity.
  rewrite Hr in E. now inversion E.
Defined.

(** C10, as the code has it.  [setValue] given a function [f] calls it with
    the current value and takes the result as candidate, never [f] as it is
    given: when the result is not a function the call is that of [setValue]
    given the result, and with listeners that leave the source alone it
    returns [f(value)] and leaves stored the previous value when the result
    is [===] to it and the result otherwise.  So [f] is stored afterwards
    only when it is its own result. *)
Theorem setValue_applies_function_argument :
  forall (apply_fn : FnRef -> Value -> Value)
         (body : Listener -> Value -> list ValueBacked.Call)
         (f : FnRef) (w : ValueBacked.World) (fuel : nat),
    let cand := apply_fn f (ValueBacked.value w) in
    (as_function cand = None ->
     ValueBacked.setValue apply_fn body fuel (VFun f) w
     = ValueBacked.setValue apply_fn body fuel cand w) /\
    ((forall l, In l (ValueBacked.listeners w) -> body l cand = []) ->
     length (ValueBacked.listeners w) <= fuel ->
     exists w',
       ValueBacked.setValue apply_fn body fuel (VFun f) w = Some (cand, w') /\
       ValueBacked.value w'
       = (if strict_eq cand (ValueBacked.value w) then ValueBacked.value w else cand) /\
       (ValueBacked.value w' = VFun f -> cand = VFun f)).
Proof.
  intros apply_fn body f w fuel cand.
  split.
  - intros Hc. unfold ValueBacked.setValue, ValueBacked.setValue_over.
    simpl as_function at 1. fold cand. now rewrite Hc.
  - intros Hq Hlen.
    rewrite (setValue_passive apply_fn body (VFun f) w fuel Hq Hlen).
    simpl as_function. subst cand.
    eexists. split; [reflexivity|].
    destruct (strict_eq (apply_fn f (ValueBacked.value w)) (ValueBacked.value w))
      eqn:E; simpl.
    + split; [reflexivity|].
      intros Hv. now rewrite (strict_eq_true _ _ E).
    + split; [reflexivity|]. intros Hv; exact Hv.
Qed.

Lemma setValue_applies_function_argument_witness :
  let w := ValueBacked.mkWorld (VNum 5) [1; 2] [] in
  as_function (increment 0 (VNum 5)) = None /\
  length (ValueBacked.listeners w) <= 2 /\
  ValueBacked.setValue increment vpassive 2 (VFun 0) w
  = ValueBacked.setValue increment vpassive 2 (VNum 6) w /\
  exists w',
    ValueBacked.setValue increment vpassive 2 (VFun 0) w = Some (VNum 6, w') /\
    ValueBacked.value w' = VNum 6 /\
    (ValueBacked.value w' = VFun 0 -> VNum 6 = VFun 0).
Proof.
  intros w.
  destruct (setValue_applies_function_argument increment vpassive 0 w 2)
    as (H1 & H2).
  split; [reflexivity|]. split; [simpl; lia|].
  split; [apply H1; reflexivity|].
  apply H2; [intros l _; reflexivity|simpl; lia].
Defined.

(** C10, as stated, fails: a function that returns itself is stored by
    [setValue], and passed to the listeners, whatever the fuel. *)
Lemma setValue_stores_self_returning_function :
  let w := snd (ValueBacked.evt 1 (ValueBacked.createValueBackedEvent VNull)) in
  ValueBacked.setValue selfReturning vpassive 1 (VFun 3) w
  = Some (VFun 3, ValueBacked.mkWorld (VFun 3) [1] [(1, VFun 3)]) /\
  (forall fuel r w',
     ValueBacked.setValue selfReturning vpassive fuel (VFun 3) w = Some (r, w') ->
     ValueBacked.getValue w' = VFun 3).
Proof.
  intros w. split; [reflexivity|].
  intros fuel r w' H.
  destruct fuel as [|fuel]; [discriminate H|].
  destruct fuel; simpl in H; injection H as _ <-; reflexivity.
Qed.

(** ** joinRemoveListeners *)

Section JoinProperties.

Import Join.

Variable W : Type.
Variable call : FnRef -> W -> Completion * W.

(** Removers that all return are called one after another to the last. *)
Lemma join_all_returned (rs : list FnRef) (s : State W) :
  (forall r w, In r rs -> fst (call r w) = Returned) ->
  joinRemoveListeners W call rs s
  = (Returned,
     mkState W (fold_left (fun w r => snd (call r w)) rs (world W s))
       (called W s ++ rs)).
Proof.
  revert s.
  induction rs as [|r rs IH]; intros s Hret; simpl.
  - rewrite app_nil_r. now destruct s.
  - pose proof (Hret r (world W s) (or_introl eq_refl)) as Hr.
    destruct (call r (world W s)) as [c w'] eqn:E. simpl in Hr. subst c.
    rewrite IH by (intros x u Hx; apply Hret; now right).
    simpl. now rewrite <- app_assoc.
Qed.

End JoinProperties.

(** C9, as the code has it.  The callable that [joinRemoveListeners(r1..rn)]
    returns calls r1..rn in the order given, each once, whatever each does
    to the state, a remover with nothing left to remove included, as long
    as each returns.  Nothing catches what a remover throws: the removers
    after one that throws are not called, and the joined remover throws. *)
Theorem joined_remover_calls_in_order :
  forall (W : Type) (call : FnRef -> W -> Join.Completion * W)
         (rs : list FnRef) (s : Join.State W),
    ((forall r w, In r rs -> fst (call r w) = Join.Returned) ->
     exists s',
       Join.joinRemoveListeners W call rs s = (Join.Returned, s') /\
       Join.called W s' = Join.called W s ++ rs /\
       Join.world W s' = fold_left (fun w r => snd (call r w)) rs (Join.world W s)) /\
    (forall pre r post,
       rs = pre ++ r :: post ->
       (forall x w, In x pre -> fst (call x w) = Join.Returned) ->
       (forall w, fst (call r w) = Join.Thrown) ->
       exists s',
         Join.joinRemoveListeners W call rs s = (Join.Thrown, s') /\
         Join.called W s' = Join.called W s ++ pre ++ [r]).
Proof.
  intros W call rs s. split.
  - intros Hret. eexists. split; [now apply join_all_returned|].
    split; reflexivity.
  - intros pre r post -> Hpre Hr.
    revert s.
    induction pre as [|x pre IH]; intros s; simpl.
    + specialize (Hr (Join.world W s)).
      destruct (call r (Join.world W s)) as [c w'] eqn:E. simpl in Hr. subst c.
      eexists. split; reflexivity.
    + pose proof (Hpre x (Join.world W s) (or_introl eq_refl)) as Hx.
      destruct (call x (Join.world W s)) as [c w'] eqn:E. simpl in Hx. subst c.
      destruct (IH (fun y u Hy => Hpre y u (or_intror Hy))
                  (Join.mkState W w' (Join.called W s ++ [x]))) as (s' & Hj & Hc).
      exists s'. split; [exact Hj|].
      rewrite Hc. simpl. now rewrite <- app_assoc.
Qed.

Lemma joined_remover_calls_in_order_witness :
  let s := Join.mkState Custom.World (Custom.mkWorld [1; 2; 3] []) [] in
  exists s',
    Join.joinRemoveListeners Custom.World registryRemovers [1; 2; 1] s
    = (Join.Returned, s') /\
    Join.called Custom.World s' = [1; 2; 1] /\
    Join.world Custom.World s' = Custom.mkWorld [3] [].
Proof.
  intros s.
  destruct (joined_remover_calls_in_order Custom.World registryRemovers [1; 2; 1] s)
    as (H & _).
  apply H. intros r w _. reflexivity.
Defined.

(** C9, as stated, fails: when the first of three removers throws, the
    joined remover stops there and the other two are never called. *)
Lemma joined_remover_stops_at_throw :
  Join.joinRemoveListeners unit throwingFirst [0; 1; 2] (Join.mkState unit tt [])
  = (Join.Thrown, Join.mkState unit tt [0]).
Proof. reflexivity. Qed.

(** * Further properties of the code *)

(** ** aryRemoveItem *)

(** X1. [aryRemoveItem] returns [true] exactly when the array holds the
    item; the array is then one entry shorter, and otherwise it is left as
    it was. *)
Theorem aryRemoveItem_reports_removal :
  forall (ary : list Listener) (item : Listener),
    (snd (aryRemoveItem ary item) = true <-> In item ary) /\
    length (fst (aryRemoveItem ary item))
    = (if snd (aryRemoveItem ary item) then length ary - 1 else length ary) /\
    (snd (aryRemoveItem ary item) = false -> fst (aryRemoveItem ary item) = ary).
Proof.
  intros ary item.
  destruct (in_dec Nat.eq_dec item ary) as [Hin|Hnot].
  - destruct (aryRemoveItem_present ary item Hin) as (pre & post & -> & _ & ->).
    simpl. split; [tauto|].
    split; [|discriminate].
    rewrite !length_app. simpl. lia.
  - rewrite (aryRemoveItem_absent ary item Hnot). simpl.
    split; [|tauto].
    split; [discriminate|contradiction].
Qed.

(** ** Registering and removing *)

Lemma register_listeners (via : Custom.Via) (f : Listener) (w : Custom.World) :
  Custom.register via f w
  = Custom.mkWorld (Custom.listeners w ++ [f]) (Custom.invoked w).
Proof. destruct via; reflexivity. Qed.

(** X2. Removing a listener right after registering it, by [evt] or by
    [addListener], gives back the source as it was when the listener was
    not registered before.  When it was, the earlier registration is the one
    removed: the listener moves to the end of the registry. *)
Theorem register_then_remove :
  forall (via : Custom.Via) (f : Listener) (w : Custom.World),
    (~ In f (Custom.listeners w) ->
     Custom.removeListener f (Custom.register via f w) = w) /\
    (forall pre post,
       Custom.listeners w = pre ++ f :: post ->
       ~ In f pre ->
       Custom.removeListener f (Custom.register via f w)
       = Custom.mkWorld (pre ++ post ++ [f]) (Custom.invoked w)).
Proof.
  intros via f [ls tr]. rewrite register_listeners.
  unfold Custom.removeListener. simpl. split.
  - intros Hnot.
    change (ls ++ [f]) with (ls ++ f :: []).
    rewrite aryRemoveItem_first by assumption.
    simpl. now rewrite app_nil_r.
  - intros pre post -> Hpre.
    rewrite <- app_assoc. simpl.
    now rewrite aryRemoveItem_first.
Qed.

Lemma register_then_remove_witness :
  Custom.removeListener 3 (Custom.register Custom.ViaEvt 3 (Custom.mkWorld [1; 2] []))
  = Custom.mkWorld [1; 2] [] /\
  Custom.removeListener 1
    (Custom.register Custom.ViaAddListener 1 (Custom.mkWorld [1; 2] []))
  = Custom.mkWorld [2; 1] [].
Proof.
  split.
  - apply (register_then_remove Custom.ViaEvt 3 (Custom.mkWorld [1; 2] [])).
    simpl. intuition lia.
  - destruct (register_then_remove Custom.ViaAddListener 1 (Custom.mkWorld [1; 2] []))
      as [_ H].
    apply (H [] [2]); [reflexivity|].
    simpl. tauto.
Defined.

(** ** Listeners that change the registry during dispatch *)

Lemma seq_calls_one {C W : Type} (step : C -> W -> option W) (c : C) (w : W) :
  seq_calls step [c] w = step c w.
Proof. simpl. now destruct (step c w). Qed.

Lemma exec_registration (body : Listener -> list Value -> list Custom.Call)
      (n : nat) (via : Custom.Via) (l : Listener) (w : Custom.World) :
  Custom.exec body (S n) (registration_call via l) w
  = Some (Custom.mkWorld (Custom.listeners w ++ [l]) (Custom.invoked w)).
Proof. destruct via; reflexivity. Qed.

(** X3. A listener registered by another listener while [trigger] runs is
    invoked by that same [trigger] call, after the listeners that were
    registered before: the loop reads the live array. *)
Theorem listener_added_during_dispatch_is_invoked :
  forall (body : Listener -> list Value -> list Custom.Call)
         (via : Custom.Via) (a b : Listener) (args : list Value)
         (pre post : list Listener) (tr : list (Listener * list Value))
         (fuel : nat),
    body a args = [registration_call via b] ->
    (forall l, In l (pre ++ post ++ [b]) -> body l args = []) ->
    length (pre ++ a :: post) + 1 <= fuel ->
    Custom.trigger body fuel args (Custom.mkWorld (pre ++ a :: post) tr)
    = Some (Custom.mkWorld (pre ++ a :: post ++ [b])
              (tr ++ map (fun l => (l, args)) (pre ++ a :: post ++ [b]))).
Proof.
  intros body via a b args pre post tr fuel Ha Hq Hlen.
  rewrite length_app in Hlen. simpl in Hlen.
  unfold Custom.trigger.
  replace fuel with (length pre + (fuel - length pre)) by lia.
  pose proof (for_of_passive_stretch body args pre [] (a :: post) tr
                (fuel - length pre)) as Hs.
  simpl app in Hs. simpl length in Hs. rewrite Hs; clear Hs.
  2:{ intros l Hl. apply Hq. apply in_or_app. now left. }
  destruct (fuel - length pre) as [|[|n]] eqn:En; [lia|lia|].
  rewrite for_of_step. simpl Custom.listeners.
  rewrite nth_error_middle, Ha.
  rewrite seq_calls_one, exec_registration.
  unfold Custom.enter. simpl Custom.listeners. simpl Custom.invoked.
  pose proof (for_of_passive body args (post ++ [b]) (pre ++ [a])
                ((tr ++ map (fun l => (l, args)) pre) ++ [(a, args)]) (S n)) as Hp.
  rewrite !length_app in Hp. simpl length in Hp.
  rewrite !Nat.add_1_r, <- !app_assoc in Hp. simpl app in Hp.
  rewrite <- !app_assoc. simpl app.
  rewrite Hp.
  - rewrite (map_app _ pre). reflexivity.
  - intros l Hl. apply Hq. apply in_or_app. now right.
  - lia.
Qed.

Lemma listener_added_during_dispatch_is_invoked_witness :
  length ([1] ++ 0 :: [2]) + 1 <= 4 /\
  Custom.trigger addsListener 4 [] (Custom.mkWorld [1; 0; 2] [])
  = Some (Custom.mkWorld [1; 0; 2; 9] [(1, []); (0, []); (2, []); (9, [])]).
Proof.
  split; [simpl; lia|].
  apply (listener_added_during_dispatch_is_invoked
           addsListener Custom.ViaAddListener 0 9 [] [1] [2] [] 4).
  - reflexivity.
  - intros l Hl. simpl in Hl.
    destruct Hl as [<-|[<-|[<-|[]]]]; reflexivity.
  - simpl. lia.
Defined.

(** The loop cannot reach the end of the array while a listener that
    registers itself is still ahead of the iterator. *)
Lemma for_of_self_registering (body : Listener -> list Value -> list Custom.Call)
      (via : Custom.Via) (a : Listener) (args : list Value) (fuel : nat) :
  body a args = [registration_call via a] ->
  forall (i : nat) (w : Custom.World),
    (exists j, i <= j /\ nth_error (Custom.listeners w) j = Some a) ->
    (forall l, In l (Custom.listeners w) -> l <> a -> body l args = []) ->
    Custom.for_of body fuel args i w = None.
Proof.
  intros Ha.
  induction fuel as [|n IH]; intros i w (j & Hij & Hj) Hq.
  - assert (Hi : i < length (Custom.listeners w)).
    { apply Nat.le_lt_trans with j; [assumption|].
      apply nth_error_Some. congruence. }
    simpl. destruct (nth_error (Custom.listeners w) i) eqn:E; [reflexivity|].
    apply nth_error_None in E. lia.
  - assert (Hi : i < length (Custom.listeners w)).
    { apply Nat.le_lt_trans with j; [assumption|].
      apply nth_error_Some. congruence. }
    rewrite for_of_step.
    destruct (nth_error (Custom.listeners w) i) as [l|] eqn:E;
      [|apply nth_error_None in E; lia].
    destruct (Nat.eq_dec l a) as [->|Hne].
    + rewrite Ha, seq_calls_one.
      destruct n as [|n']; [reflexivity|].
      rewrite exec_registration.
      apply IH.
      * exists (length (Custom.listeners w)). simpl.
        split; [lia|]. apply (nth_error_middle (Custom.listeners w) [] a).
      * simpl. intros l Hl Hla. apply Hq; [|assumption].
        apply in_app_or in Hl. destruct Hl as [Hl|[<-|[]]]; [assumption|congruence].
    + rewrite (Hq l (nth_error_In _ _ E) Hne). simpl seq_calls.
      apply IH.
      * exists j. simpl. split; [|assumption].
        destruct (Nat.eq_dec i j) as [->|]; [|lia].
        rewrite E in Hj. congruence.
      * exact Hq.
Qed.

(** X4. When a registered listener registers itself again each time it is
    invoked (the others leaving the source alone), [trigger] does not
    complete: the array grows under the iterator, which never reaches its
    end. *)
Theorem self_registering_listener_never_completes :
  forall (body : Listener -> list Value -> list Custom.Call)
         (via : Custom.Via) (a : Listener) (args : list Value)
         (w : Custom.World) (fuel : nat),
    body a args = [registration_call via a] ->
    In a (Custom.listeners w) ->
    (forall l, In l (Custom.listeners w) -> l <> a -> body l args = []) ->
    Custom.trigger body fuel args w = None.
Proof.
  intros body via a args w fuel Ha Hin Hq.
  unfold Custom.trigger.
  apply (for_of_self_registering body via a args fuel Ha); [|assumption].
  destruct (In_nth_error _ _ Hin) as (j & Hj).
  exists j. split; [lia|assumption].
Qed.

Lemma self_registering_listener_never_completes_witness :
  In 0 (Custom.listeners (Custom.mkWorld [1; 0; 2] [])) /\
  forall fuel,
    Custom.trigger selfRegistering fuel [VNum 1] (Custom.mkWorld [1; 0; 2] []) = None.
Proof.
  assert (Hin : In 0 (Custom.listeners (Custom.mkWorld [1; 0; 2] [])))
    by (simpl; tauto).
  split; [exact Hin|].
  intros fuel.
  apply (self_registering_listener_never_completes
           selfRegistering Custom.ViaEvt 0 [VNum 1] (Custom.mkWorld [1; 0; 2] []) fuel
           eq_refl Hin).
  intros l Hl Hne. destruct l; [congruence|reflexivity].
Defined.

(** X5. When a listener removes a listener registered after it while it
    is invoked, the removed listener is not invoked by that [trigger] call
    and all the others are, in order. *)
Theorem removing_later_listener_during_dispatch :
  forall (body : Listener -> list Value -> list Custom.Call)
         (a b : Listener) (args : list Value)
         (pre mid post : list Listener) (tr : list (Listener * list Value))
         (fuel : nat),
    body a args = [Custom.CallRemoveListener b] ->
    a <> b ->
    ~ In b (pre ++ mid) ->
    (forall l, In l (pre ++ mid ++ post) -> body l args = []) ->
    length (pre ++ a :: mid ++ post) + 1 <= fuel ->
    Custom.trigger body fuel args (Custom.mkWorld (pre ++ a :: mid ++ b :: post) tr)
    = Some (Custom.mkWorld (pre ++ a :: mid ++ post)
              (tr ++ map (fun l => (l, args)) (pre ++ a :: mid ++ post))).
Proof.
  intros body a b args pre mid post tr fuel Ha Hab Hb Hq Hlen.
  rewrite length_app in Hlen. simpl in Hlen.
  unfold Custom.trigger.
  replace fuel with (length pre + (fuel - length pre)) by lia.
  pose proof (for_of_passive_stretch body args pre [] (a :: mid ++ b :: post) tr
                (fuel - length pre)) as Hs.
  simpl app in Hs. simpl length in Hs. rewrite Hs; clear Hs.
  2:{ intros l Hl. apply Hq. apply in_or_app. now left. }
  destruct (fuel - length pre) as [|[|n]] eqn:En; [lia|lia|].
  rewrite for_of_step. simpl Custom.listeners.
  rewrite nth_error_middle, Ha.
  change (seq_calls (Custom.exec body (S n)) [Custom.CallRemoveListener b]
            (Custom.enter a args
               (Custom.mkWorld (pre ++ a :: mid ++ b :: post)
                  (tr ++ map (fun l => (l, args)) pre))))
    with (Some (Custom.mkWorld
                  (fst (aryRemoveItem (pre ++ a :: mid ++ b :: post) b))
                  ((tr ++ map (fun l => (l, args)) pre) ++ [(a, args)]))).
  replace (pre ++ a :: mid ++ b :: post) with ((pre ++ a :: mid) ++ b :: post)
    by (rewrite <- app_assoc; reflexivity).
  rewrite aryRemoveItem_first.
  2:{ intros Hin. apply in_app_or in Hin. destruct Hin as [Hin|[Hin|Hin]].
      - apply Hb. apply in_or_app. now left.
      - congruence.
      - apply Hb. apply in_or_app. now right. }
  simpl fst.
  pose proof (for_of_passive body args (mid ++ post) (pre ++ [a])
                ((tr ++ map (fun l => (l, args)) pre) ++ [(a, args)]) (S n)) as Hp.
  rewrite !length_app in Hp. simpl length in Hp.
  rewrite !Nat.add_1_r, <- !app_assoc in Hp. simpl app in Hp.
  rewrite <- !app_assoc. simpl app.
  rewrite Hp.
  - rewrite (map_app _ pre). reflexivity.
  - intros l Hl. apply Hq. apply in_or_app. now right.
  - rewrite length_app in Hlen. lia.
Qed.

Lemma removing_later_listener_during_dispatch_witness :
  0 <> 2 /\ ~ In 2 ([1] ++ [3]) /\
  length ([1] ++ 0 :: [3] ++ [4]) + 1 <= 5 /\
  Custom.trigger removesLater 5 [] (Custom.mkWorld [1; 0; 3; 2; 4] [])
  = Some (Custom.mkWorld [1; 0; 3; 4] [(1, []); (0, []); (3, []); (4, [])]).
Proof.
  assert (H1 : 0 <> 2) by lia.
  assert (H2 : ~ In 2 ([1] ++ [3])) by (simpl; intuition lia).
  assert (H3 : length ([1] ++ 0 :: [3] ++ [4]) + 1 <= 5) by (simpl; lia).
  repeat (split; [assumption|]).
  apply (removing_later_listener_during_dispatch
           removesLater 0 2 [] [1] [3] [4] [] 5 eq_refl H1 H2); [|exact H3].
  intros l Hl. simpl in Hl.
  destruct Hl as [<-|[<-|[<-|[]]]]; reflexivity.
Defined.

(** ** The value-backed event: what is stored and when it dispatches *)

Section ValueBackedFurther.

Import ValueBacked.

Variable apply_fn : FnRef -> Value -> Value.
Variable body : Listener -> Value -> list Call.

Lemma vb_exec_setValue (n : nat) (v : Value) (w : World) :
  exec apply_fn body (S n) (CallSetValue v) w
  = option_map snd (setValue apply_fn body n v w).
Proof. reflexivity. Qed.

Lemma vb_exec_remover (n : nat) (l : Listener) (w : World) :
  exec apply_fn body (S n) (CallRemover l) w
  = Some (mkWorld (value w) (fst (aryRemoveItem (listeners w) l)) (invoked w)).
Proof. reflexivity. Qed.

(** Over a stretch [mid] of listeners that make no call, the iterator
    advances to its end, at the cost of one unit of fuel for each. *)
Lemma vb_for_of_passive_stretch (v : Value) (mid pre suf : list Listener)
      (tr : list (Listener * Value)) (fuel : nat) :
  (forall l, In l mid -> body l v = []) ->
  for_of apply_fn body (length mid + fuel) (length pre)
    (mkWorld v (pre ++ mid ++ suf) tr)
  = for_of apply_fn body fuel (length (pre ++ mid))
      (mkWorld v (pre ++ mid ++ suf) (tr ++ map (fun l => (l, v)) mid)).
Proof.
  revert pre tr.
  induction mid as [|x mid IH]; intros pre tr Hq.
  - simpl. now rewrite !app_nil_r.
  - simpl length. rewrite Nat.add_succ_l, vb_for_of_step.
    simpl listeners. simpl value.
    change (pre ++ (x :: mid) ++ suf) with (pre ++ x :: (mid ++ suf)).
    rewrite nth_error_middle.
    rewrite (Hq x (or_introl eq_refl)). simpl seq_calls.
    unfold enter. simpl listeners. simpl invoked. simpl value.
    specialize (IH (pre ++ [x]) (tr ++ [(x, v)])).
    rewrite !length_app in IH. simpl in IH.
    rewrite !Nat.add_1_r, <- !app_assoc in IH. simpl in IH.
    rewrite IH by (intros l Hl; apply Hq; now right).
    rewrite !length_app. simpl. now rewrite Nat.add_succ_r.
Qed.

End ValueBackedFurther.

(** X6. The raw [trigger(v)] of a value-backed source stores [v] as it is
    given, a function included, unless [v] is [===] to the stored value; it
    then invokes each registered listener (leaving the source alone while
    it runs) with [v], in insertion order. *)
Theorem value_backed_trigger_stores_argument :
  forall (apply_fn : FnRef -> Value -> Value)
         (body : Listener -> Value -> list ValueBacked.Call)
         (v : Value) (w : ValueBacked.World) (fuel : nat),
    (forall l, In l (ValueBacked.listeners w) -> body l v = []) ->
    length (ValueBacked.listeners w) <= fuel ->
    ValueBacked.trigger apply_fn body fuel v w
    = Some (if strict_eq v (ValueBacked.value w) then w
            else ValueBacked.mkWorld v (ValueBacked.listeners w)
                   (ValueBacked.invoked w
                    ++ map (fun l => (l, v)) (ValueBacked.listeners w))).
Proof.
  intros apply_fn body v w fuel Hq Hlen.
  unfold ValueBacked.trigger, ValueBacked.trigger_over.
  destruct (strict_eq v (ValueBacked.value w)); [reflexivity|].
  now rewrite vb_dispatch_passive.
Qed.

Lemma value_backed_trigger_stores_argument_witness :
  let w := ValueBacked.mkWorld (VNum 5) [1; 2] [] in
  length (ValueBacked.listeners w) <= 2 /\
  ValueBacked.trigger increment vpassive 2 (VFun 7) w
  = Some (ValueBacked.mkWorld (VFun 7) [1; 2] [(1, VFun 7); (2, VFun 7)]) /\
  ValueBacked.setValue increment vpassive 2 (VFun 7) w
  = Some (VNum 6, ValueBacked.mkWorld (VNum 6) [1; 2] [(1, VNum 6); (2, VNum 6)]).
Proof.
  intros w. split; [simpl; lia|]. split; [|reflexivity].
  apply (value_backed_trigger_stores_argument increment vpassive (VFun 7) w 2).
  - intros l _. reflexivity.
  - simpl. lia.
Defined.

(** X7. De-duplication: once [setValue(v)] has run for a value [v] that is
    not a function and is [===] to itself, the stored value is [v], and
    setting or triggering [v] again changes nothing and invokes no
    listener. *)
Theorem setValue_again_is_noop :
  forall (apply_fn : FnRef -> Value -> Value)
         (body : Listener -> Value -> list ValueBacked.Call)
         (v : Value) (w : ValueBacked.World) (fuel : nat),
    as_function v = None ->
    strict_eq v v = true ->
    (forall l, In l (ValueBacked.listeners w) -> body l v = []) ->
    length (ValueBacked.listeners w) <= fuel ->
    exists w1,
      ValueBacked.setValue apply_fn body fuel v w = Some (v, w1) /\
      ValueBacked.getValue w1 = v /\
      ValueBacked.setValue apply_fn body fuel v w1 = Some (v, w1) /\
      ValueBacked.trigger apply_fn body fuel v w1 = Some w1.
Proof.
  intros apply_fn body v w fuel Hv Hrefl Hq Hlen.
  pose proof (setValue_passive apply_fn body v w fuel) as Hs.
  rewrite Hv in Hs. simpl in Hs. specialize (Hs Hq Hlen).
  eexists. split; [exact Hs|].
  assert (Hval : ValueBacked.value
                   (if strict_eq v (ValueBacked.value w) then w
                    else ValueBacked.mkWorld v (ValueBacked.listeners w)
                           (ValueBacked.invoked w
                            ++ map (fun l => (l, v)) (ValueBacked.listeners w)))
                 = v).
  { destruct (strict_eq v (ValueBacked.value w)) eqn:E; [|reflexivity].
    symmetry. now apply strict_eq_true. }
  split; [exact Hval|].
  unfold ValueBacked.setValue, ValueBacked.setValue_over,
    ValueBacked.trigger, ValueBacked.trigger_over.
  rewrite Hv, Hval, Hrefl. split; reflexivity.
Qed.

Lemma setValue_again_is_noop_witness :
  let w := ValueBacked.mkWorld (VStr "chicken") [1; 2] [] in
  let w1 := ValueBacked.mkWorld (VStr "rat") [1; 2] [(1, VStr "rat"); (2, VStr "rat")] in
  as_function (VStr "rat") = None /\
  strict_eq (VStr "rat") (VStr "rat") = true /\
  length (ValueBacked.listeners w) <= 2 /\
  ValueBacked.setValue increment vpassive 2 (VStr "rat") w = Some (VStr "rat", w1) /\
  ValueBacked.setValue increment vpassive 2 (VStr "rat") w1 = Some (VStr "rat", w1).
Proof.
  intros w w1.
  assert (Hlen : length (ValueBacked.listeners w) <= 2) by (simpl; lia).
  destruct (setValue_again_is_noop increment vpassive (VStr "rat") w 2
              eq_refl eq_refl (fun l _ => eq_refl) Hlen) as (u & H1 & _ & H2 & _).
  assert (E : u = w1).
  { assert (H : ValueBacked.setValue increment vpassive 2 (VStr "rat") w
                = Some (VStr "rat", w1)) by reflexivity.
    rewrite H1 in H. now inversion H. }
  subst u.
  repeat (split; [reflexivity || assumption|]). exact H2.
Defined.

(** X8. [NaN] is never de-duplicated: [setValue(NaN)] and [trigger(NaN)]
    store it and invoke every listener (leaving the source alone) whatever
    the stored value is, [NaN] included. *)
Theorem nan_always_dispatches :
  forall (apply_fn : FnRef -> Value -> Value)
         (body : Listener -> Value -> list ValueBacked.Call)
         (w : ValueBacked.World) (fuel : nat),
    (forall l, In l (ValueBacked.listeners w) -> body l VNaN = []) ->
    length (ValueBacked.listeners w) <= fuel ->
    let w' := ValueBacked.mkWorld VNaN (ValueBacked.listeners w)
                (ValueBacked.invoked w
                 ++ map (fun l => (l, VNaN)) (ValueBacked.listeners w)) in
    ValueBacked.setValue apply_fn body fuel VNaN w = Some (VNaN, w') /\
    ValueBacked.trigger apply_fn body fuel VNaN w = Some w'.
Proof.
  intros apply_fn body w fuel Hq Hlen w'.
  unfold ValueBacked.setValue, ValueBacked.setValue_over,
    ValueBacked.trigger, ValueBacked.trigger_over.
  simpl as_function. cbv beta iota zeta. simpl strict_eq. cbv iota.
  pose proof (vb_dispatch_passive apply_fn body (ValueBacked.assign VNaN w) fuel
                Hq Hlen) as Hd.
  rewrite Hd. split; reflexivity.
Qed.

Lemma nan_always_dispatches_witness :
  let w := ValueBacked.mkWorld VNaN [1] [(1, VNaN)] in
  length (ValueBacked.listeners w) <= 1 /\
  ValueBacked.setValue increment vpassive 1 VNaN w
  = Some (VNaN, ValueBacked.mkWorld VNaN [1] [(1, VNaN); (1, VNaN)]).
Proof.
  intros w. split; [simpl; lia|].
  apply (nan_always_dispatches increment vpassive w 1).
  - intros l _. reflexivity.
  - simpl. lia.
Defined.

(** ** Listeners of a value-backed source that call back into it *)

Section ValueBackedReentrant.

Import ValueBacked.

Variable apply_fn : FnRef -> Value -> Value.
Variable body : Listener -> Value -> list Call.

(** A dispatch of [x] in which the listener [a] sets [x] again: its call
    finds the value stored already and does nothing. *)
Lemma vb_for_of_idle_setter (x : Value) (a : Listener) (pre post : list Listener)
      (tr : list (Listener * Value)) (fuel : nat) :
  as_function x = None ->
  strict_eq x x = true ->
  body a x = [CallSetValue x] ->
  (forall l, In l (pre ++ post) -> body l x = []) ->
  length pre + length post + 2 <= fuel ->
  for_of apply_fn body fuel 0 (mkWorld x (pre ++ a :: post) tr)
  = Some (mkWorld x (pre ++ a :: post)
            (tr ++ map (fun l => (l, x)) (pre ++ a :: post))).
Proof.
  intros Hx Hrefl Ha Hq Hlen.
  replace fuel with (length pre + (fuel - length pre)) by lia.
  pose proof (vb_for_of_passive_stretch apply_fn body x pre [] (a :: post) tr
                (fuel - length pre)) as Hs.
  simpl app in Hs. simpl length in Hs. rewrite Hs; clear Hs.
  2:{ intros l Hl. apply Hq. apply in_or_app. now left. }
  destruct (fuel - length pre) as [|[|n]] eqn:En; [lia|lia|].
  rewrite vb_for_of_step. simpl listeners. simpl value.
  rewrite nth_error_middle, Ha, seq_calls_one, vb_exec_setValue.
  unfold setValue, setValue_over, enter.
  rewrite Hx. simpl value. rewrite Hrefl. simpl option_map.
  simpl listeners. simpl invoked.
  pose proof (vb_for_of_passive apply_fn body x post (pre ++ [a])
                ((tr ++ map (fun l => (l, x)) pre) ++ [(a, x)]) (S n)) as Hp.
  rewrite !length_app in Hp. simpl length in Hp.
  rewrite !Nat.add_1_r, <- !app_assoc in Hp. simpl app in Hp.
  rewrite <- !app_assoc. simpl app.
  rewrite Hp.
  - rewrite (map_app _ pre). reflexivity.
  - intros l Hl. apply Hq. apply in_or_app. now right.
  - lia.
Qed.

(** The loop when the listener at the end of [pre], registered there only,
    calls its remover: the array closes up under the iterator. *)
Lemma vb_for_of_self_removal (v : Value) (a : Listener) (pre post : list Listener)
      (tr : list (Listener * Value)) (fuel : nat) :
  ~ In a pre ->
  body a v = [CallRemover a] ->
  (forall l, In l (pre ++ post) -> body l v = []) ->
  length (pre ++ a :: post) < fuel ->
  for_of apply_fn body fuel 0 (mkWorld v (pre ++ a :: post) tr)
  = Some (mkWorld v (pre ++ post)
            (tr ++ map (fun l => (l, v)) (pre ++ a :: tl post))).
Proof.
  intros Hpre Ha Hq Hlen.
  rewrite length_app in Hlen. simpl in Hlen.
  replace fuel with (length pre + (fuel - length pre)) by lia.
  pose proof (vb_for_of_passive_stretch apply_fn body v pre [] (a :: post) tr
                (fuel - length pre)) as Hs.
  simpl app in Hs. simpl length in Hs. rewrite Hs; clear Hs.
  2:{ intros l Hl. apply Hq. apply in_or_app. now left. }
  destruct (fuel - length pre) as [|[|n]] eqn:En; [lia|lia|].
  rewrite vb_for_of_step. simpl listeners. simpl value.
  rewrite nth_error_middle, Ha, seq_calls_one, vb_exec_remover.
  unfold enter. simpl listeners. simpl invoked. simpl value.
  rewrite aryRemoveItem_first by assumption. simpl fst.
  rewrite (map_app _ pre). simpl map.
  destruct post as [|p post].
  - simpl tl. simpl map. rewrite !app_nil_r, <- app_assoc.
    apply vb_for_of_end. simpl listeners.
    apply nth_error_None. lia.
  - simpl tl.
    pose proof (vb_for_of_passive apply_fn body v post (pre ++ [p])
                  ((tr ++ map (fun l => (l, v)) pre) ++ [(a, v)]) (S n)) as Hp.
    rewrite !length_app in Hp. simpl length in Hp.
    rewrite !Nat.add_1_r, <- !app_assoc in Hp. simpl app in Hp.
    rewrite <- !app_assoc. simpl app.
    rewrite Hp; [reflexivity| |simpl in Hlen; lia].
    intros l Hl. apply Hq. apply in_or_app. right. now right.
Qed.

End ValueBackedReentrant.

(** X9. When a listener answers every value by calling [setValue(x2)],
    [setValue(x1)] stores [x1] only for a moment: the listeners before it
    get [x1], then all are invoked with [x2] by the inner call, then the
    listeners after it are invoked by the outer loop, with [x2] again and
    never with [x1], since the loop passes the variable [value]; and the
    outer call returns [x2], not its own candidate. *)
Theorem setValue_from_listener_overrides :
  forall (apply_fn : FnRef -> Value -> Value)
         (body : Listener -> Value -> list ValueBacked.Call)
         (a : Listener) (x1 x2 cur : Value) (pre post : list Listener)
         (tr : list (Listener * Value)) (fuel : nat),
    as_function x1 = None ->
    as_function x2 = None ->
    strict_eq x1 cur = false ->
    strict_eq x2 x1 = false ->
    strict_eq x2 x2 = true ->
    body a x1 = [ValueBacked.CallSetValue x2] ->
    body a x2 = [ValueBacked.CallSetValue x2] ->
    (forall l, In l (pre ++ post) -> body l x1 = [] /\ body l x2 = []) ->
    2 * length (pre ++ a :: post) + 2 <= fuel ->
    ValueBacked.setValue apply_fn body fuel x1
      (ValueBacked.mkWorld cur (pre ++ a :: post) tr)
    = Some (x2,
            ValueBacked.mkWorld x2 (pre ++ a :: post)
              (tr ++ map (fun l => (l, x1)) (pre ++ [a])
                  ++ map (fun l => (l, x2)) (pre ++ a :: post)
                  ++ map (fun l => (l, x2)) post)).
Proof.
  intros apply_fn body a x1 x2 cur pre post tr fuel
         H1 H2 Hc H21 H22 Ha1 Ha2 Hq Hlen.
  rewrite length_app in Hlen. simpl in Hlen.
  unfold ValueBacked.setValue, ValueBacked.setValue_over.
  rewrite H1. simpl ValueBacked.value. rewrite Hc.
  unfold ValueBacked.assign. simpl ValueBacked.listeners. simpl ValueBacked.invoked.
  replace fuel with (length pre + (fuel - length pre)) by lia.
  pose proof (vb_for_of_passive_stretch apply_fn body x1 pre [] (a :: post) tr
                (fuel - length pre)) as Hs.
  simpl app in Hs. simpl length in Hs. rewrite Hs; clear Hs.
  2:{ intros l Hl. apply Hq. apply in_or_app. now left. }
  destruct (fuel - length pre) as [|[|n]] eqn:En; [lia|lia|].
  rewrite vb_for_of_step. simpl ValueBacked.listeners. simpl ValueBacked.value.
  rewrite nth_error_middle, Ha1, seq_calls_one, vb_exec_setValue.
  unfold ValueBacked.setValue, ValueBacked.setValue_over, ValueBacked.enter.
  rewrite H2. simpl ValueBacked.value. rewrite H21.
  unfold ValueBacked.assign. simpl ValueBacked.listeners. simpl ValueBacked.invoked.
  rewrite (vb_for_of_idle_setter apply_fn body x2 a pre post _ n H2 H22 Ha2);
    [|intros l Hl; now apply Hq|lia].
  simpl option_map. simpl ValueBacked.value.
  pose proof (vb_for_of_passive apply_fn body x2 post (pre ++ [a])
                (((tr ++ map (fun l => (l, x1)) pre) ++ [(a, x1)])
                   ++ map (fun l => (l, x2)) (pre ++ a :: post)) (S n)) as Hp.
  rewrite !length_app in Hp. simpl length in Hp.
  rewrite !Nat.add_1_r in Hp.
  replace ((pre ++ [a]) ++ post) with (pre ++ a :: post) in Hp
    by (rewrite <- app_assoc; reflexivity).
  cbv beta iota.
  rewrite Hp.
  - simpl ValueBacked.value. rewrite (map_app _ pre [a]). simpl map.
    rewrite <- !app_assoc. reflexivity.
  - intros l Hl. apply Hq. apply in_or_app. now right.
  - lia.
Qed.

Lemma setValue_from_listener_overrides_witness :
  2 * length ([1] ++ 0 :: [2]) + 2 <= 8 /\
  ValueBacked.setValue increment resetting 8 (VNum 7)
    (ValueBacked.mkWorld (VNum 5) [1; 0; 2] [])
  = Some (VNum 0,
          ValueBacked.mkWorld (VNum 0) [1; 0; 2]
            [(1, VNum 7); (0, VNum 7);
             (1, VNum 0); (0, VNum 0); (2, VNum 0);
             (2, VNum 0)]).
Proof.
  split; [simpl; lia|].
  assert (Hq : forall l, In l ([1] ++ [2]) ->
                 resetting l (VNum 7) = [] /\ resetting l (VNum 0) = []).
  { intros l Hl. simpl in Hl. destruct Hl as [<-|[<-|[]]]; split; reflexivity. }
  assert (Hlen : 2 * length ([1] ++ 0 :: [2]) + 2 <= 8) by (simpl; lia).
  exact (setValue_from_listener_overrides
           increment resetting 0 (VNum 7) (VNum 0) (VNum 5) [1] [2] [] 8
           eq_refl eq_refl eq_refl eq_refl eq_refl eq_refl eq_refl Hq Hlen).
Defined.

(** X10. The dispatch of [setValue] walks the live array like [trigger]:
    when a listener registered once calls its remover while it is invoked
    with the new value (the others leaving the source alone), the listener
    registered right after it is not told of the new value, and every
    listener after that one is. *)
Theorem setValue_self_removal_skips_following_listener :
  forall (apply_fn : FnRef -> Value -> Value)
         (body : Listener -> Value -> list ValueBacked.Call)
         (a : Listener) (next cur : Value) (pre post : list Listener)
         (tr : list (Listener * Value)) (fuel : nat),
    let cand := match next with
                | VFun f => apply_fn f cur
                | _ => next
                end in
    strict_eq cand cur = false ->
    ~ In a pre ->
    body a cand = [ValueBacked.CallRemover a] ->
    (forall l, In l (pre ++ post) -> body l cand = []) ->
    length (pre ++ a :: post) < fuel ->
    ValueBacked.setValue apply_fn body fuel next
      (ValueBacked.mkWorld cur (pre ++ a :: post) tr)
    = Some (cand,
            ValueBacked.mkWorld cand (pre ++ post)
              (tr ++ map (fun l => (l, cand)) (pre ++ a :: tl post))).
Proof.
  intros apply_fn body a next cur pre post tr fuel cand Hc Hpre Ha Hq Hlen.
  assert (Ec : cand = match as_function next with
                      | Some f => apply_fn f cur
                      | None => next
                      end)
    by (subst cand; destruct next; reflexivity).
  unfold ValueBacked.setValue, ValueBacked.setValue_over.
  simpl ValueBacked.value. rewrite <- Ec, Hc.
  unfold ValueBacked.assign. simpl ValueBacked.listeners. simpl ValueBacked.invoked.
  now rewrite (vb_for_of_self_removal apply_fn body cand a pre post tr fuel).
Qed.

Lemma setValue_self_removal_skips_following_listener_witness :
  strict_eq (VNum 6) (VNum 5) = false /\
  ~ In 0 [3] /\
  length ([3] ++ 0 :: [1; 2]) < 5 /\
  ValueBacked.setValue increment vselfRemoving 5 (VFun 8)
    (ValueBacked.mkWorld (VNum 5) [3; 0; 1; 2] [])
  = Some (VNum 6,
          ValueBacked.mkWorld (VNum 6) [3; 1; 2]
            [(3, VNum 6); (0, VNum 6); (2, VNum 6)]).
Proof.
  assert (H1 : ~ In 0 [3]) by (simpl; intuition lia).
  assert (H2 : length ([3] ++ 0 :: [1; 2]) < 5) by (simpl; lia).
  split; [reflexivity|]. split; [exact H1|]. split; [exact H2|].
  apply (setValue_self_removal_skips_following_listener
           increment vselfRemoving 0 (VFun 8) (VNum 5) [3] [1; 2] [] 5
           eq_refl H1 eq_refl); [|exact H2].
  intros l Hl. simpl in Hl.
  destruct Hl as [<-|[<-|[<-|[]]]]; reflexivity.
Defined.

(** ** Removal of another listener, and dispatches that always complete *)

(** X11. When a listener removes, while it is invoked, a listener
    registered once before it, the array closes up under the iterator and
    the listener registered right after the remover is not invoked by that
    [trigger] call; the ones after that are. *)
Theorem removing_earlier_listener_skips_next :
  forall (body : Listener -> list Value -> list Custom.Call)
         (a b : Listener) (args : list Value)
         (pre1 pre2 post : list Listener) (tr : list (Listener * list Value))
         (fuel : nat),
    body a args = [Custom.CallRemoveListener b] ->
    ~ In b pre1 ->
    (forall l, In l (pre1 ++ b :: pre2 ++ post) -> body l args = []) ->
    length (pre1 ++ b :: pre2 ++ a :: post) < fuel ->
    Custom.trigger body fuel args
      (Custom.mkWorld (pre1 ++ b :: pre2 ++ a :: post) tr)
    = Some (Custom.mkWorld (pre1 ++ pre2 ++ a :: post)
              (tr ++ map (fun l => (l, args))
                       (pre1 ++ b :: pre2 ++ a :: tl post))).
Proof.
  intros body a b args pre1 pre2 post tr fuel Ha Hb Hq Hlen.
  set (pre := pre1 ++ b :: pre2).
  assert (Epre : pre1 ++ b :: pre2 ++ a :: post = pre ++ a :: post)
    by (subst pre; rewrite <- app_assoc; reflexivity).
  assert (Hqpre : forall l, In l pre -> body l args = []).
  { intros l Hl. apply Hq. subst pre.
    apply in_app_or in Hl. apply in_or_app.
    destruct Hl as [Hl|[Hl|Hl]]; [now left|right; now left|].
    right. right. apply in_or_app. now left. }
  assert (Hqpost : forall l, In l post -> body l args = []).
  { intros l Hl. apply Hq. apply in_or_app. right. right.
    apply in_or_app. now right. }
  rewrite Epre in Hlen |- *.
  rewrite length_app in Hlen. simpl in Hlen.
  unfold Custom.trigger.
  replace fuel with (length pre + (fuel - length pre)) by lia.
  pose proof (for_of_passive_stretch body args pre [] (a :: post) tr
                (fuel - length pre) Hqpre) as Hs.
  simpl app in Hs. simpl length in Hs. rewrite Hs; clear Hs.
  destruct (fuel - length pre) as [|[|n]] eqn:En; [lia|lia|].
  rewrite for_of_step. simpl Custom.listeners.
  rewrite nth_error_middle, Ha, seq_calls_one.
  change (Custom.exec body (S n) (Custom.CallRemoveListener b)
            (Custom.enter a args
               (Custom.mkWorld (pre ++ a :: post)
                  (tr ++ map (fun l => (l, args)) pre))))
    with (Some (Custom.mkWorld (fst (aryRemoveItem (pre ++ a :: post) b))
                  ((tr ++ map (fun l => (l, args)) pre) ++ [(a, args)]))).
  rewrite <- Epre. rewrite aryRemoveItem_first by assumption. simpl fst.
  assert (Hl : length pre = length (pre1 ++ pre2 ++ [a])).
  { subst pre. rewrite !length_app. simpl. rewrite ?length_app. simpl. lia. }
  assert (Etr : forall rest,
             (tr ++ map (fun l => (l, args)) pre) ++ (a, args) :: rest
             = tr ++ map (fun l => (l, args)) pre ++ (a, args) :: rest)
    by (intros rest; now rewrite <- app_assoc).
  assert (Emap : forall rest,
             map (fun l => (l, args)) (pre1 ++ b :: pre2 ++ a :: rest)
             = map (fun l => (l, args)) pre
               ++ (a, args) :: map (fun l => (l, args)) rest).
  { intros rest.
    replace (pre1 ++ b :: pre2 ++ a :: rest) with (pre ++ a :: rest)
      by (subst pre; rewrite <- app_assoc; reflexivity).
    rewrite map_app. reflexivity. }
  rewrite Emap.
  destruct post as [|p post].
  - simpl tl. simpl map.
    rewrite for_of_end; [now rewrite Etr|].
    simpl Custom.listeners. apply nth_error_None.
    rewrite Hl, !length_app. simpl. rewrite ?length_app. simpl. lia.
  - simpl tl.
    replace (S (length pre)) with (length ((pre1 ++ pre2 ++ [a]) ++ [p]))
      by (rewrite length_app, <- Hl; simpl; lia).
    replace (pre1 ++ pre2 ++ a :: p :: post)
      with (((pre1 ++ pre2 ++ [a]) ++ [p]) ++ post)
      by (rewrite <- !app_assoc; reflexivity).
    rewrite for_of_passive;
      [|intros l Hl'; apply Hqpost; now right|simpl in Hlen; lia].
    rewrite <- !app_assoc. reflexivity.
Qed.

Lemma removing_earlier_listener_skips_next_witness :
  ~ In 1 [3] /\
  length ([3] ++ 1 :: [4] ++ 0 :: [5; 6]) < 7 /\
  Custom.trigger removesEarlier 7 [] (Custom.mkWorld [3; 1; 4; 0; 5; 6] [])
  = Some (Custom.mkWorld [3; 4; 0; 5; 6]
            [(3, []); (1, []); (4, []); (0, []); (6, [])]).
Proof.
  assert (H1 : ~ In 1 [3]) by (simpl; intuition lia).
  assert (H2 : length ([3] ++ 1 :: [4] ++ 0 :: [5; 6]) < 7) by (simpl; lia).
  split; [exact H1|]. split; [exact H2|].
  apply (removing_earlier_listener_skips_next
           removesEarlier 0 1 [] [3] [4] [5; 6] [] 7 eq_refl H1); [|exact H2].
  intros l Hl. simpl in Hl.
  destruct Hl as [<-|[<-|[<-|[<-|[<-|[]]]]]]; reflexivity.
Defined.

Lemma aryRemoveItem_subset (ary : list Listener) (item x : Listener) :
  In x (fst (aryRemoveItem ary item)) -> In x ary.
Proof.
  destruct (in_dec Nat.eq_dec item ary) as [Hin|Hnot].
  - destruct (aryRemoveItem_present ary item Hin) as (pre & post & -> & _ & ->).
    simpl. intros H. apply in_app_or in H. apply in_or_app.
    destruct H; [now left|right; now right].
  - now rewrite aryRemoveItem_absent.
Qed.

Section RemovalOnly.

Import Custom.

Variable body : Listener -> list Value -> list Call.
Variable args : list Value.

Hypothesis body_removes : forall l, forallb removal_call (body l args) = true.

(** Calls that only remove never fail, never lengthen the array and leave
    the record of invocations alone. *)
Lemma removal_calls_complete (n : nat) (cs : list Call) (w : World) :
  forallb removal_call cs = true ->
  exists w',
    seq_calls (exec body (S n)) cs w = Some w' /\
    length (listeners w') <= length (listeners w) /\
    (forall x, In x (listeners w') -> In x (listeners w)) /\
    invoked w' = invoked w.
Proof.
  revert w.
  induction cs as [|c cs IH]; intros w Hcs.
  - exists w. simpl. repeat split; auto.
  - simpl in Hcs. apply andb_prop in Hcs. destruct Hcs as [Hc Hcs].
    assert (E : exists l, exec body (S n) c w = Some (removeListener l w)).
    { destruct c as [l|l|l|l|a]; try discriminate Hc; exists l; reflexivity. }
    destruct E as (l & E).
    destruct (IH (removeListener l w) Hcs) as (w' & Hs & Hl & Hsub & Hi).
    exists w'.
    change (seq_calls (exec body (S n)) (c :: cs) w)
      with (match exec body (S n) c w with
            | Some w1 => seq_calls (exec body (S n)) cs w1
            | None => None
            end).
    rewrite E.
    split; [exact Hs|].
    split.
    { eapply Nat.le_trans; [exact Hl|]. simpl. apply aryRemoveItem_length. }
    split; [|exact Hi].
    intros x Hx. apply Hsub in Hx. simpl in Hx.
    eapply aryRemoveItem_subset; exact Hx.
Qed.

Lemma for_of_removal_only (fuel i : nat) (w : World) :
  length (listeners w) - i < fuel ->
  exists w',
    for_of body fuel args i w = Some w' /\
    length (listeners w') <= length (listeners w) /\
    (forall x, In x (listeners w') -> In x (listeners w)) /\
    length (invoked w') <= length (invoked w) + (length (listeners w) - i).
Proof.
  revert i w.
  induction fuel as [|n IH]; intros i w Hlen; [lia|].
  rewrite for_of_step.
  destruct (nth_error (listeners w) i) as [l|] eqn:E.
  - assert (Hi : i < length (listeners w))
      by (apply nth_error_Some; congruence).
    destruct n as [|m]; [lia|].
    destruct (removal_calls_complete m (body l args) (enter l args w)
                (body_removes l)) as (w1 & Hs & Hl & Hsub & Hinv).
    rewrite Hs. simpl in Hl, Hsub, Hinv.
    destruct (IH (S i) w1 ltac:(lia)) as (w' & Hf & Hl' & Hsub' & Hinv').
    exists w'. split; [exact Hf|].
    split; [lia|].
    split; [auto|].
    rewrite Hinv, length_app in Hinv'. simpl in Hinv'. lia.
  - exists w. repeat split; auto; lia.
Qed.

End RemovalOnly.

(** X12. When the listeners do nothing to the source but remove listeners
    from it, themselves or others, [trigger] always completes: it makes at
    most as many invocations as there were listeners, and no listener is in
    the registry afterwards that was not there before. *)
Theorem trigger_completes_when_listeners_only_remove :
  forall (body : Listener -> list Value -> list Custom.Call)
         (args : list Value) (w : Custom.World) (fuel : nat),
    (forall l, forallb removal_call (body l args) = true) ->
    length (Custom.listeners w) < fuel ->
    exists w',
      Custom.trigger body fuel args w = Some w' /\
      length (Custom.listeners w') <= length (Custom.listeners w) /\
      (forall x, In x (Custom.listeners w') -> In x (Custom.listeners w)) /\
      length (Custom.invoked w')
      <= length (Custom.invoked w) + length (Custom.listeners w).
Proof.
  intros body args w fuel Hb Hlen.
  destruct (for_of_removal_only body args Hb fuel 0 w ltac:(lia))
    as (w' & Hf & Hl & Hsub & Hinv).
  exists w'. unfold Custom.trigger.
  repeat split; auto. lia.
Qed.

Lemma trigger_completes_when_listeners_only_remove_witness :
  length (Custom.listeners (Custom.mkWorld [1; 2; 3; 4] [])) < 5 /\
  exists w',
    Custom.trigger unsubscribing 5 [] (Custom.mkWorld [1; 2; 3; 4] []) = Some w' /\
    Custom.listeners w' = [3] /\
    Custom.invoked w' = [(1, []); (4, [])].
Proof.
  assert (Hlen : length (Custom.listeners (Custom.mkWorld [1; 2; 3; 4] [])) < 5)
    by (simpl; lia).
  split; [exact Hlen|].
  destruct (trigger_completes_when_listeners_only_remove
              unsubscribing [] (Custom.mkWorld [1; 2; 3; 4] []) 5
              (fun _ => eq_refl) Hlen) as (w' & Ht & _).
  exists w'. split; [exact Ht|].
  assert (E : Custom.trigger unsubscribing 5 [] (Custom.mkWorld [1; 2; 3; 4] [])
              = Some (Custom.mkWorld [3] [(1, []); (4, [])])) by reflexivity.
  rewrite Ht in E. inversion E. split; reflexivity.
Defined.

(** ** joinRemoveListeners: composition, and undoing registrations *)

(** X13. The joined remover of the removers [rs1] followed by [rs2] does
    what the joined remover of [rs1] does and then, when that one returns,
    what the joined remover of [rs2] does; when it throws, nothing of
    [rs2] is called. *)
Theorem joined_remover_of_concatenation :
  forall (W : Type) (call : FnRef -> W -> Join.Completion * W)
         (rs1 rs2 : list FnRef) (s : Join.State W),
    Join.joinRemoveListeners W call (rs1 ++ rs2) s
    = match Join.joinRemoveListeners W call rs1 s with
      | (Join.Returned, s') => Join.joinRemoveListeners W call rs2 s'
      | (Join.Thrown, s') => (Join.Thrown, s')
      end.
Proof.
  intros W call rs1 rs2.
  induction rs1 as [|r rs1 IH]; intros s; simpl; [reflexivity|].
  destruct (call r (Join.world W s)) as [c w'].
  destruct c; [apply IH|reflexivity].
Qed.

Lemma register_all_invoked (rs : list (Custom.Via * Listener)) (w : Custom.World) :
  Custom.invoked (Custom.register_all rs w) = Custom.invoked w.
Proof.
  revert w. unfold Custom.register_all.
  induction rs as [|[via l] rs IH]; intros w; simpl; [reflexivity|].
  rewrite IH. now destruct via.
Qed.

(** The removers of listeners registered last, called in the order of
    registration, take them out one after another. *)
Lemma removers_undo (ls ls0 : list Listener) (tr : list (Listener * list Value)) :
  (forall l, In l ls -> ~ In l ls0) ->
  fold_left (fun w r => snd (registryRemovers r w)) ls (Custom.mkWorld (ls0 ++ ls) tr)
  = Custom.mkWorld ls0 tr.
Proof.
  induction ls as [|l ls IH]; intros Hfresh; simpl.
  - now rewrite app_nil_r.
  - unfold Custom.remover, Custom.removeListener. simpl.
    rewrite aryRemoveItem_first by (apply Hfresh; now left).
    simpl. apply IH. intros x Hx. apply Hfresh. now right.
Qed.

(** Removers of listeners that are not registered change nothing. *)
Lemma removers_idle (ls ls0 : list Listener) (tr : list (Listener * list Value)) :
  (forall l, In l ls -> ~ In l ls0) ->
  fold_left (fun w r => snd (registryRemovers r w)) ls (Custom.mkWorld ls0 tr)
  = Custom.mkWorld ls0 tr.
Proof.
  induction ls as [|l ls IH]; intros Hfresh; simpl; [reflexivity|].
  unfold Custom.remover, Custom.removeListener. simpl.
  rewrite aryRemoveItem_absent by (apply Hfresh; now left).
  simpl. apply IH. intros x Hx. apply Hfresh. now right.
Qed.

(** X14. Registering listeners with [evt], none of them registered before,
    and joining the removers returned: the joined remover returns, having
    called each remover, and gives back the source as it was before the
    registrations; invoked once more it changes nothing. *)
Theorem joined_removers_undo_registrations :
  forall (ls : list Listener) (w : Custom.World) (log : list FnRef),
    (forall l, In l ls -> ~ In l (Custom.listeners w)) ->
    let w1 := Custom.register_all (map (fun l => (Custom.ViaEvt, l)) ls) w in
    Custom.listeners w1 = Custom.listeners w ++ ls /\
    Join.joinRemoveListeners Custom.World registryRemovers ls
      (Join.mkState Custom.World w1 log)
    = (Join.Returned, Join.mkState Custom.World w (log ++ ls)) /\
    Join.joinRemoveListeners Custom.World registryRemovers ls
      (Join.mkState Custom.World w (log ++ ls))
    = (Join.Returned, Join.mkState Custom.World w ((log ++ ls) ++ ls)).
Proof.
  intros ls w log Hfresh w1.
  assert (E1 : w1 = Custom.mkWorld (Custom.listeners w ++ ls) (Custom.invoked w)).
  { subst w1.
    pose proof (register_all_listeners (map (fun l => (Custom.ViaEvt, l)) ls) w) as Hl.
    pose proof (register_all_invoked (map (fun l => (Custom.ViaEvt, l)) ls) w) as Hi.
    rewrite map_map in Hl. simpl in Hl. rewrite map_id in Hl.
    destruct (Custom.register_all _ w) as [ls' tr']. simpl in *. now subst. }
  split; [now rewrite E1|].
  split.
  - rewrite join_all_returned by (intros; reflexivity).
    simpl. rewrite E1, removers_undo by assumption. now destruct w.
  - rewrite join_all_returned by (intros; reflexivity).
    simpl. destruct w as [ls0 tr]. simpl in Hfresh.
    now rewrite removers_idle.
Qed.

Lemma joined_removers_undo_registrations_witness :
  let w := Custom.mkWorld [1; 2] [] in
  let w1 := Custom.register_all
              [(Custom.ViaEvt, 5); (Custom.ViaEvt, 6); (Custom.ViaEvt, 5)] w in
  Custom.listeners w1 = [1; 2; 5; 6; 5] /\
  Join.joinRemoveListeners Custom.World registryRemovers [5; 6; 5]
    (Join.mkState Custom.World w1 [])
  = (Join.Returned, Join.mkState Custom.World w [5; 6; 5]).
Proof.
  intros w w1.
  destruct (joined_removers_undo_registrations [5; 6; 5] w []) as (H1 & H2 & _).
  - intros l Hl. simpl in *. intuition lia.
  - split; [exact H1|exact H2].
Defined.

(** ** ExampleClass *)

(** X15. [setStr(value)] of [ExampleClass] stores the value in [str] and
    invokes every listener of [onStringChange] (leaving the source alone)
    with it each time it is called, also when the value is the one already
    stored: a plain value event does not de-duplicate.  The other two
    events of the object are not touched. *)
Theorem setStr_triggers_every_time :
  forall (body : Listener -> list Value -> list Custom.Call)
         (v : Value) (o : Example.ExampleClass) (fuel : nat),
    let ls := Custom.listeners (Example._onStringChange o) in
    (forall l, In l ls -> body l [v] = []) ->
    length ls <= fuel ->
    exists o1 o2,
      Example.setStr body fuel v o = Some o1 /\
      Example.setStr body fuel v o1 = Some o2 /\
      Example.str o1 = v /\ Example.str o2 = v /\
      Custom.invoked (Example._onStringChange o1)
      = Custom.invoked (Example._onStringChange o) ++ map (fun l => (l, [v])) ls /\
      Custom.invoked (Example._onStringChange o2)
      = Custom.invoked (Example._onStringChange o1) ++ map (fun l => (l, [v])) ls /\
      Example._onBake o2 = Example._onBake o /\
      Example._onGo o2 = Example._onGo o.
Proof.
  intros body v o fuel ls Hq Hlen.
  unfold Example.setStr. simpl.
  rewrite (trigger_passive body [v] (Example._onStringChange o) fuel Hq Hlen).
  eexists. eexists. split; [reflexivity|]. simpl.
  rewrite (trigger_passive body [v]
             (Custom.mkWorld (Custom.listeners (Example._onStringChange o))
                (Custom.invoked (Example._onStringChange o)
                 ++ map (fun l => (l, [v]))
                      (Custom.listeners (Example._onStringChange o))))
             fuel Hq Hlen).
  split; [reflexivity|]. simpl. repeat split; reflexivity.
Qed.

Lemma setStr_triggers_every_time_witness :
  let o := Example.onStringChange Custom.ViaEvt 1 Example.new in
  length (Custom.listeners (Example._onStringChange o)) <= 1 /\
  exists o1 o2,
    Example.setStr passive 1 (VStr "fast") o = Some o1 /\
    Example.setStr passive 1 (VStr "fast") o1 = Some o2 /\
    Example.str o2 = VStr "fast" /\
    Custom.invoked (Example._onStringChange o2)
    = [(1, [VStr "fast"]); (1, [VStr "fast"])].
Proof.
  intros o.
  assert (Hlen : length (Custom.listeners (Example._onStringChange o)) <= 1)
    by (simpl; lia).
  split; [exact Hlen|].
  destruct (setStr_triggers_every_time passive (VStr "fast") o 1
              (fun _ _ => eq_refl) Hlen)
    as (o1 & o2 & H1 & H2 & _ & H4 & H5 & H6 & _).
  exists o1, o2. repeat (split; [assumption|]).
  rewrite H6, H5. reflexivity.
Defined.
